(** * Keyframe script (Assignment6/headers/script.h)

    A shallow embedding of [class Script]: a [std::list<Frame>] of keyframes,
    a list iterator that marks the current keyframe, and the [int] ordinal
    [currFrameNum] that the class keeps next to the iterator.

    Conventions of the embedding.
    - [Frame], the scene root and the [float] blend weight are opaque: the
      class only copies frames and hands them to [frame.h].  The four
      entry points of [frame.h] that the class calls form the interface
      [FrameOps].
    - A [std::list] iterator is represented by the index of the node it is
      attached to; [frames.end()] is the index [length frames].  Iterators of
      a [std::list] stay attached to their node when other nodes are inserted
      or erased, so the index of a surviving iterator moves with its node
      ([after_insert], [after_erase]).
    - Operations that the C++ standard leaves undefined (stepping an iterator
      off either end of the list, reading through [end()], overflowing a
      signed [int]) stop the computation with a [Fault] that records the
      store at that point.
    - [showFrameInScene], the [cout] notices and the file written by
      [writeScriptToFile] are recorded as output events.
    - [size_t] is 64 bits wide and [int] 32 bits wide (LP64). *)

From Stdlib Require Import String Ascii ZArith Arith Bool Lia List.
Import ListNotations.
Local Open Scope Z_scope.

(** ** Machine integers *)

Definition SIZE_T_MODULUS : Z := 2 ^ 64.
Definition INT_MAX : Z := 2 ^ 31 - 1.
Definition INT_MIN : Z := - 2 ^ 31.

(** Conversion of an integer value to [size_t] (value modulo 2^64): what the
    usual arithmetic conversions do to the [int] operand of a comparison with
    a [size_t], and what unsigned subtraction does to its result. *)
Definition to_size_t (z : Z) : Z := z mod SIZE_T_MODULUS.

(** Narrowing of a [size_t] to [int], as in [return frames.size();]. *)
Definition to_int (z : Z) : Z := (z - INT_MIN) mod 2 ^ 32 + INT_MIN.

Definition newline : ascii := "010"%char.

(** ** Interface of frame.h *)

Class FrameOps (Frame SgRootNode Alpha : Type) := {
  (** [Frame(rootNode)] *)
  Frame_fromScene : SgRootNode -> Frame;
  (** [Frame::deserialize(rootNode, line)] *)
  Frame_deserialize : SgRootNode -> string -> Frame;
  (** [frame.serialize()] *)
  Frame_serialize : Frame -> string;
  (** [Frame::interpolate(prev, first, second, after, alpha)] *)
  Frame_interpolate : Frame -> Frame -> Frame -> Frame -> Alpha -> Frame
}.

(** ** Data *)

Record Script (Frame : Type) := mkScript {
  frames : list Frame;
  iter : nat;
  currFrameNum : Z
}.
Arguments mkScript {Frame} _ _ _.
Arguments frames {Frame} _.
Arguments iter {Frame} _.
Arguments currFrameNum {Frame} _.

Inductive message :=
| AdvancingToFrame (n : Z)
| RegressingToFrame (n : Z)
| AddingNewFrame (n : Z)
| NoScriptFileFound (filename : string).

Inductive event (Frame : Type) :=
| ShowFrameInScene (f : Frame)
| Cout (m : message)
| FileWritten (filename contents : string).
Arguments ShowFrameInScene {Frame} _.
Arguments Cout {Frame} _.
Arguments FileWritten {Frame} _ _.

Inductive fault :=
| DecrementBegin      (* --it with it == begin() *)
| IncrementEnd        (* ++it with it == end() *)
| DereferenceEnd      (* *it or it-> with it == end() *)
| EraseEnd            (* erase(end()) *)
| SignedOverflow.     (* ++ or -- on an int at its limit *)

Inductive outcome (Frame A : Type) :=
| Ok (a : A) (s : Script Frame) (out : list (event Frame))
| Fault (f : fault) (s : Script Frame) (out : list (event Frame)).
Arguments Ok {Frame A} _ _ _.
Arguments Fault {Frame A} _ _ _.

(** Index of a surviving iterator [i] after a node was inserted before
    index [p], and after the node at index [p] was erased. *)
Definition after_insert (p i : nat) : nat := if (p <=? i)%nat then S i else i.
Definition after_erase (p i : nat) : nat := if (p <? i)%nat then Nat.pred i else i.

Definition list_insert {A : Type} (p : nat) (x : A) (l : list A) : list A :=
  firstn p l ++ x :: skipn p l.
Definition list_erase {A : Type} (p : nat) (l : list A) : list A :=
  firstn p l ++ skipn (S p) l.
Definition list_assign {A : Type} (p : nat) (x : A) (l : list A) : list A :=
  firstn p l ++ x :: skipn (S p) l.

(** ** The state-and-fault monad of member functions *)

Section Monad.
Context {Frame : Type}.

Definition M (A : Type) : Type := Script Frame -> outcome Frame A.

Definition ret {A} (a : A) : M A := fun s => Ok a s [].

Definition bind {A B} (m : M A) (k : A -> M B) : M B :=
  fun s =>
    match m s with
    | Ok a s1 o1 =>
        match k a s1 with
        | Ok b s2 o2 => Ok b s2 (o1 ++ o2)
        | Fault f s2 o2 => Fault f s2 (o1 ++ o2)
        end
    | Fault f s1 o1 => Fault f s1 o1
    end.

Definition gets {A} (f : Script Frame -> A) : M A := fun s => Ok (f s) s [].
Definition raise {A} (f : fault) : M A := fun s => Fault f s [].
Definition emit (e : event Frame) : M unit := fun s => Ok tt s [e].

End Monad.

Notation "x <- m ;; k" := (bind m (fun x => k))
  (at level 61, m at next level, right associativity).
Notation "m ;; k" := (bind m (fun _ => k))
  (at level 61, right associativity).

(** ** Primitive steps on the list, the iterator and the counter *)

Section Primitives.
Context {Frame : Type}.
Local Abbreviation M := (@M Frame).

(** [frames.size()], a [size_t]. *)
Definition size : M Z := gets (fun s => Z.of_nat (length (frames s))).
(** [frames.begin()] and [frames.end()]. *)
Definition list_begin : M nat := ret 0%nat.
Definition list_end : M nat := gets (fun s => length (frames s)).

Definition get_iter : M nat := gets iter.
Definition set_iter (i : nat) : M unit :=
  fun s => Ok tt (mkScript (frames s) i (currFrameNum s)) [].
Definition get_currFrameNum : M Z := gets currFrameNum.
Definition set_currFrameNum (c : Z) : M unit :=
  fun s => Ok tt (mkScript (frames s) (iter s) c) [].

(** [++it] and [--it] on any iterator [it] of [frames]. *)
Definition it_incr (it : nat) : M nat :=
  e <- list_end ;;
  if (it <? e)%nat then ret (S it) else raise IncrementEnd.
Definition it_decr (it : nat) : M nat :=
  match it with
  | O => raise DecrementBegin
  | S p => ret p
  end.

(** [iter++] and [iter--]. *)
Definition iter_incr : M unit := it <- get_iter ;; it' <- it_incr it ;; set_iter it'.
Definition iter_decr : M unit := it <- get_iter ;; it' <- it_decr it ;; set_iter it'.

(** [*iter] read, and [iter->showFrameInScene()]. *)
Definition deref : M Frame :=
  fun s =>
    match nth_error (frames s) (iter s) with
    | Some f => Ok f s []
    | None => Fault DereferenceEnd s []
    end.
Definition showFrameInScene (f : Frame) : M unit := emit (ShowFrameInScene f).
Definition iter_showFrameInScene : M unit := f <- deref ;; showFrameInScene f.

(** [*iter = frame]. *)
Definition iter_assign (frame : Frame) : M unit :=
  fun s =>
    if (iter s <? length (frames s))%nat
    then Ok tt (mkScript (list_assign (iter s) frame (frames s)) (iter s) (currFrameNum s)) []
    else Fault DereferenceEnd s [].

(** [frames.insert(pos, frame)]: the new node goes before [pos]; the member
    iterator stays on its node. *)
Definition frames_insert (pos : nat) (frame : Frame) : M unit :=
  fun s => Ok tt (mkScript (list_insert pos frame (frames s))
                           (after_insert pos (iter s)) (currFrameNum s)) [].
(** [frames.push_back(frame)]. *)
Definition frames_push_back (frame : Frame) : M unit :=
  e <- list_end ;; frames_insert e frame.
(** [frames.erase(pos)]. The member iterator is left as it is: when it is
    [pos] itself it is invalid until it is assigned again. *)
Definition frames_erase (pos : nat) : M unit :=
  fun s =>
    if (pos <? length (frames s))%nat
    then Ok tt (mkScript (list_erase pos (frames s)) (iter s) (currFrameNum s)) []
    else Fault EraseEnd s [].

(** [currFrameNum++] and [currFrameNum--]. *)
Definition currFrameNum_incr : M unit :=
  c <- get_currFrameNum ;;
  if c =? INT_MAX then raise SignedOverflow else set_currFrameNum (c + 1).
Definition currFrameNum_decr : M unit :=
  c <- get_currFrameNum ;;
  if c =? INT_MIN then raise SignedOverflow else set_currFrameNum (c - 1).

Definition cout (m : message) : M unit := emit (Cout m).

End Primitives.

(** ** Member functions of [class Script] *)

Section Members.
Context {Frame SgRootNode Alpha : Type} {ops : FrameOps Frame SgRootNode Alpha}.
Local Abbreviation M := (@M Frame).

(** [Script()] and the private [Script(list<Frame> initial_frames)]. *)
Definition Script_new : Script Frame := mkScript [] 0%nat 0.
Definition Script_of (initial_frames : list Frame) : Script Frame :=
  mkScript initial_frames 0%nat 0.

Definition defined : M bool :=
  n <- size ;;
  if n =? 0 then
    (b <- list_begin ;; set_iter b ;; set_currFrameNum 0 ;; ret false)
  else
    (it <- get_iter ;; e <- list_end ;; ret (negb (it =? e)%nat)).

Definition getNumberOfKeyframes : M Z :=
  n <- size ;; ret (to_int n).

Definition advanceIter : M unit :=
  iter_incr ;;
  currFrameNum_incr ;;
  c <- get_currFrameNum ;;
  cout (AdvancingToFrame c).

Definition regressIter : M unit :=
  iter_decr ;;
  currFrameNum_decr ;;
  c <- get_currFrameNum ;;
  cout (RegressingToFrame c).

(** In [defined() && currFrameNum < frames.size() - 2] the right operand is
    evaluated only after [defined()] returned true, and the comparison is
    made in [size_t]: the subtraction wraps and the [int] is converted. *)
Definition canAnimate : M bool :=
  d <- defined ;;
  if d : bool then
    (c <- get_currFrameNum ;;
     n <- size ;;
     ret (to_size_t c <? to_size_t (n - 2)))
  else ret false.

Definition showCurrentFrameInScene : M unit :=
  d <- defined ;;
  if d : bool then iter_showFrameInScene else ret tt.

Definition deleteCurrentFrame : M unit :=
  d <- defined ;;
  if d : bool then
    (it <- get_iter ;;
     b <- list_begin ;;
     temp <- (if (it =? b)%nat then it_incr it else it_decr it) ;;
     frames_erase it ;;
     set_iter (after_erase it temp) ;;
     iter_showFrameInScene)
  else ret tt.

Definition createNewFrameFromSceneAfterCurrentFrame (rootNode : SgRootNode) : M unit :=
  let frame := Frame_fromScene rootNode in
  d <- defined ;;
  (if d : bool then
     (iter_incr ;;
      it <- get_iter ;;
      frames_insert it frame ;;
      iter_decr ;;
      currFrameNum_incr)
   else
     (frames_push_back frame ;;
      b <- list_begin ;;
      set_iter b ;;
      set_currFrameNum 0)) ;;
  c <- get_currFrameNum ;;
  cout (AddingNewFrame c) ;;
  iter_showFrameInScene.

Definition replaceCurrentFrameFromScene (rootNode : SgRootNode) : M unit :=
  d <- defined ;;
  if d : bool then
    (let frame := Frame_fromScene rootNode in
     iter_assign frame ;;
     iter_showFrameInScene)
  else createNewFrameFromSceneAfterCurrentFrame rootNode.

Definition advanceCurrentFrame : M unit :=
  g <- (d <- defined ;;
        if d : bool then
          (c <- get_currFrameNum ;;
           n <- size ;;
           ret (to_size_t c <? to_size_t (n - 1)))
        else ret false) ;;
  if g : bool then (advanceIter ;; iter_showFrameInScene) else ret tt.

Definition regressCurrentFrame : M unit :=
  d <- defined ;;
  if d : bool then
    (it <- get_iter ;;
     b <- list_begin ;;
     if negb (it =? b)%nat then (regressIter ;; iter_showFrameInScene) else ret tt)
  else ret tt.

Definition goToBeginning : M unit :=
  b <- list_begin ;;
  set_iter b ;;
  set_currFrameNum 0 ;;
  d <- defined ;;
  if d : bool then iter_showFrameInScene else ret tt.

Definition interpolate (alpha : Alpha) : M unit :=
  iter_decr ;;
  prevFrame <- deref ;;
  iter_incr ;;
  firstFrame <- deref ;;
  iter_incr ;;
  secondFrame <- deref ;;
  iter_incr ;;
  afterFrame <- deref ;;
  iter_decr ;;
  iter_decr ;;
  showFrameInScene (Frame_interpolate prevFrame firstFrame secondFrame afterFrame alpha).

(** [writeScriptToFile]: the loop over [frames] builds the text that is
    handed to the output stream. *)
Fixpoint serialize_frames (serialized : string) (l : list Frame) : string :=
  match l with
  | [] => serialized
  | f :: l' => serialize_frames (serialized ++ (Frame_serialize f ++ String newline EmptyString))%string l'
  end.

Definition writeScriptToFile (filename : string) : M unit :=
  fs <- gets frames ;;
  emit (FileWritten filename (serialize_frames EmptyString fs)).

End Members.

(** ** Loading a script *)

(** The files that can be opened for reading, with their contents. *)
Definition FileSystem : Type := string -> option string.

(** Result of a loop that is run with fuel. *)
Inductive run (A : Type) :=
| Done (a : A)
| Undefined (f : fault)
| OutOfFuel.
Arguments Done {A} _.
Arguments Undefined {A} _.
Arguments OutOfFuel {A}.

(** [getline(file, line)]: the characters up to the next newline are stored
    in [line] and the newline is dropped; at the end of the file with nothing
    extracted the stream fails. *)
Fixpoint split_line (file : string) : string * string :=
  match file with
  | EmptyString => (EmptyString, EmptyString)
  | String c rest =>
      if Ascii.eqb c newline then (EmptyString, rest)
      else let (line, rest') := split_line rest in (String c line, rest')
  end.

Definition getline (file : string) : option (string * string) :=
  match file with
  | EmptyString => None
  | String _ _ => Some (split_line file)
  end.

(** [while (getline(file, line)) serialized.push_back(line);] *)
Fixpoint read_lines (fuel : nat) (file : string) (serialized : list string)
  : run (list string) :=
  match fuel with
  | O => OutOfFuel
  | S fuel' =>
      match getline file with
      | Some (line, file') => read_lines fuel' file' (serialized ++ [line])
      | None => Done serialized
      end
  end.

Section Loading.
Context {Frame SgRootNode Alpha : Type} {ops : FrameOps Frame SgRootNode Alpha}.

(** [for (int i = 0; i < serialized.size(); i++)
       newFrames.push_back(Frame::deserialize(rootNode, serialized[i]));] *)
Fixpoint deserialize_loop (fuel : nat) (rootNode : SgRootNode)
    (serialized : list string) (i : Z) (newFrames : list Frame)
  : run (list Frame) :=
  match fuel with
  | O => OutOfFuel
  | S fuel' =>
      if to_size_t i <? Z.of_nat (length serialized) then
        let newFrames' :=
          newFrames ++ [Frame_deserialize rootNode (nth (Z.to_nat i) serialized EmptyString)] in
        if i =? INT_MAX then Undefined SignedOverflow
        else deserialize_loop fuel' rootNode serialized (i + 1) newFrames'
      else Done newFrames
  end.

Definition loadScriptFromFile (fs : FileSystem) (filename : string)
    (rootNode : SgRootNode) : run (Script Frame * list (event Frame)) :=
  match fs filename with
  | None => Done (Script_new, [Cout (NoScriptFileFound filename)])
  | Some file =>
      match read_lines (S (String.length file)) file [] with
      | Done serialized =>
          match deserialize_loop (S (length serialized)) rootNode serialized 0 [] with
          | Done newFrames => Done (Script_of newFrames, [])
          | Undefined f => Undefined f
          | OutOfFuel => OutOfFuel
          end
      | Undefined f => Undefined f
      | OutOfFuel => OutOfFuel
      end
  end.

End Loading.

(** ** The public interface as a command alphabet *)

Section Calls.
Context {Frame SgRootNode Alpha : Type} {ops : FrameOps Frame SgRootNode Alpha}.

Inductive call :=
| GetNumberOfKeyframes
| AdvanceIter
| RegressIter
| CanAnimate
| ShowCurrentFrameInScene
| ReplaceCurrentFrameFromScene (rootNode : SgRootNode)
| AdvanceCurrentFrame
| RegressCurrentFrame
| GoToBeginning
| DeleteCurrentFrame
| CreateNewFrameFromSceneAfterCurrentFrame (rootNode : SgRootNode)
| Interpolate (alpha : Alpha)
| WriteScriptToFile (filename : string).

Definition exec (c : call) : @M Frame unit :=
  match c with
  | GetNumberOfKeyframes => getNumberOfKeyframes ;; ret tt
  | AdvanceIter => advanceIter
  | RegressIter => regressIter
  | CanAnimate => canAnimate ;; ret tt
  | ShowCurrentFrameInScene => showCurrentFrameInScene
  | ReplaceCurrentFrameFromScene rootNode => replaceCurrentFrameFromScene rootNode
  | AdvanceCurrentFrame => advanceCurrentFrame
  | RegressCurrentFrame => regressCurrentFrame
  | GoToBeginning => goToBeginning
  | DeleteCurrentFrame => deleteCurrentFrame
  | CreateNewFrameFromSceneAfterCurrentFrame rootNode =>
      createNewFrameFromSceneAfterCurrentFrame rootNode
  | Interpolate alpha => interpolate alpha
  | WriteScriptToFile filename => writeScriptToFile filename
  end.

(** What a caller owes before a call.  [advanceIter] steps without a guard
    of its own: it is to be called with the cursor on an element that has a
    successor.  Every other member function guards itself or is covered by
    the fault model. *)
Definition precondition (c : call) (s : Script Frame) : Prop :=
  match c with
  | AdvanceIter => (S (iter s) < length (frames s))%nat
  | _ => True
  end.

(** The cursor references a live element whenever there is one. *)
Definition cursor_ok (s : Script Frame) : Prop :=
  frames s = [] \/ (iter s < length (frames s))%nat.

(** [currFrameNum] is the distance from [begin()] to the cursor whenever the
    cursor is on an element. *)
Definition ordinal_ok (s : Script Frame) : Prop :=
  (iter s < length (frames s))%nat -> currFrameNum s = Z.of_nat (iter s).

(** What every member function keeps: the cursor is on an element, or the
    list is empty and the cursor is at its [begin()]; [currFrameNum] is an
    [int] that is not below the distance from [begin()] to the cursor. *)
Definition store_inv (s : Script Frame) : Prop :=
  ((iter s < length (frames s))%nat \/ (frames s = [] /\ iter s = 0%nat))
  /\ Z.of_nat (iter s) <= currFrameNum s <= INT_MAX.

(** Stores that a client can obtain: a constructed store, then calls that
    return.  The last rule keeps the store in which deleting the only
    keyframe leaves the object at the moment it reads through [end()]. *)
Inductive reachable : Script Frame -> Prop :=
| reachable_new : reachable Script_new
| reachable_of (initial_frames : list Frame) : reachable (Script_of initial_frames)
| reachable_call s c s' out :
    reachable s -> precondition c s -> exec c s = Ok tt s' out -> reachable s'
| reachable_delete_only s s' out :
    reachable s -> deleteCurrentFrame s = Fault DereferenceEnd s' out -> reachable s'.

End Calls.

(** ** A concrete instance, for running the model

    Frames are named by strings, the scene is a string that names the pose
    it is in, and the blend weight is a whole number of thousandths. *)

Module Demo.

#[local] Open Scope string_scope.

#[export] Instance demo_ops : FrameOps string string Z := {
  Frame_fromScene := fun rootNode => rootNode;
  Frame_deserialize := fun _ line => line;
  Frame_serialize := fun f => f;
  Frame_interpolate := fun p f s a _ => "mix(" ++ p ++ "," ++ f ++ "," ++ s ++ "," ++ a ++ ")"
}.

Definition A : string := "A".
Definition B : string := "B".
Definition C : string := "C".
Definition D : string := "D".

Definition at_cursor (l : list string) (i : nat) (c : Z) : Script string :=
  mkScript l i c.

(** A file system with one script file of three lines. *)
Definition one_file : FileSystem :=
  fun filename =>
    if String.eqb filename "script.txt"
    then Some ("A" ++ String newline ("B" ++ String newline ("C" ++ String newline EmptyString)))
    else None.

End Demo.

(** ** Reference notions used in the statements *)

(** The lines of a text: the pieces between newlines; a last piece that is
    not closed by a newline counts when it is not empty. *)
Fixpoint file_lines_from (line : string) (started : bool) (file : string) : list string :=
  match file with
  | EmptyString => if started then [line] else []
  | String c rest =>
      if Ascii.eqb c newline then line :: file_lines_from EmptyString false rest
      else file_lines_from (line ++ String c EmptyString) true rest
  end.
Definition file_lines (file : string) : list string :=
  file_lines_from EmptyString false file.

(** The text that has the given lines, each closed by a newline. *)
Fixpoint unlines (ls : list string) : string :=
  match ls with
  | [] => EmptyString
  | l :: ls' => (l ++ String newline (unlines ls'))%string
  end.

Fixpoint newline_free (l : string) : Prop :=
  match l with
  | EmptyString => True
  | String c l' => Ascii.eqb c newline = false /\ newline_free l'
  end.

(** [n] calls of the same member function in a row. *)
Fixpoint repeat_call {Frame : Type} (n : nat) (m : @M Frame unit) : @M Frame unit :=
  match n with
  | O => ret tt
  | S n' => m ;; repeat_call n' m
  end.

(** The frames that a run has put on the scene, in order. *)
Fixpoint shown_frames {Frame : Type} (out : list (event Frame)) : list Frame :=
  match out with
  | [] => []
  | ShowFrameInScene f :: out' => f :: shown_frames out'
  | _ :: out' => shown_frames out'
  end.

(** Stores obtained from a constructed store by public calls that return,
    with nothing asked of the caller. *)
Inductive reachable_by_calls {Frame SgRootNode Alpha : Type}
    {ops : FrameOps Frame SgRootNode Alpha} : Script Frame -> Prop :=
| by_calls_new : reachable_by_calls Script_new
| by_calls_of (initial_frames : list Frame) : reachable_by_calls (Script_of initial_frames)
| by_calls_step s c s' out :
    reachable_by_calls s -> exec c s = Ok tt s' out -> reachable_by_calls s'.

(** * Properties *)

Ltac steps :=
  cbv beta iota zeta delta
      [bind ret gets raise emit size list_begin list_end get_iter set_iter
      get_currFrameNum set_currFrameNum it_incr it_decr iter_incr iter_decr
       deref showFrameInScene iter_showFrameInScene iter_assign frames_insert
       frames_push_back frames_erase currFrameNum_incr currFrameNum_decr cout
       advanceIter regressIter frames iter currFrameNum negb].

Ltac steps_in H :=
  cbv beta iota zeta delta
      [bind ret gets raise emit size list_begin list_end get_iter set_iter
       get_currFrameNum set_currFrameNum it_incr it_decr iter_incr iter_decr
       deref showFrameInScene iter_showFrameInScene iter_assign frames_insert
       frames_push_back frames_erase currFrameNum_incr currFrameNum_decr cout
       advanceIter regressIter frames iter currFrameNum negb
       after_insert after_erase] in H.

(** A test that the term [t] is stuck on: a scrutinee with no test inside. *)
Ltac stuck_test t :=
  match t with
  | context [match ?x with _ => _ end] =>
      match x with
      | context [match _ with _ => _ end] => stuck_test x
      | _ => x
      end
  end.

(** One case split on a test that the computation in [H] is stuck on. *)
Ltac case_split H :=
  let T := type of H in
  let x := stuck_test T in
  destruct x eqn:?;
  cbv beta iota in H; try discriminate H.

(** Boolean tests recorded by [case_split], as propositions. *)
Ltac bools :=
  repeat match goal with
  | H : (_ <? _)%nat = true |- _ => apply Nat.ltb_lt in H
  | H : (_ <? _)%nat = false |- _ => apply Nat.ltb_ge in H
  | H : (_ <=? _)%nat = true |- _ => apply Nat.leb_le in H
  | H : (_ <=? _)%nat = false |- _ => apply Nat.leb_gt in H
  | H : (_ =? _)%nat = true |- _ => apply Nat.eqb_eq in H
  | H : (_ =? _)%nat = false |- _ => apply Nat.eqb_neq in H
  | H : (_ =? _)%Z = true |- _ => apply Z.eqb_eq in H
  | H : (_ =? _)%Z = false |- _ => apply Z.eqb_neq in H
  | H : (_ <? _)%Z = true |- _ => apply Z.ltb_lt in H
  | H : (_ <? _)%Z = false |- _ => apply Z.ltb_ge in H
  | H : nth_error _ _ = None |- _ => apply nth_error_None in H
  end.

Section Properties.
Context {Frame SgRootNode Alpha : Type} {ops : FrameOps Frame SgRootNode Alpha}.
Implicit Types (s : Script Frame) (fs : list Frame) (f : Frame).

(** *** [defined] *)

Lemma defined_empty it c :
  defined (mkScript (@nil Frame) it c) = Ok false Script_new [].
Proof. reflexivity. Qed.

Lemma defined_cons f fs it c :
  defined (mkScript (f :: fs) it c)
  = Ok (negb (it =? length (f :: fs))%nat) (mkScript (f :: fs) it c) [].
Proof. reflexivity. Qed.

Lemma defined_live s :
  (iter s < length (frames s))%nat -> defined s = Ok true s [].
Proof.
  destruct s as [[|f fs] it c]; cbn [frames iter length]; intros Hlt.
  - lia.
  - rewrite defined_cons.
    replace (it =? length (f :: fs))%nat with false; [reflexivity|].
    symmetry; apply Nat.eqb_neq; cbn [length]; lia.
Qed.

Lemma defined_returns s :
  exists b s', defined s = Ok b s' [] /\ frames s' = frames s.
Proof.
  destruct s as [[|f fs] it c].
  - eexists _, _; split; [apply defined_empty | reflexivity].
  - eexists _, _; split; [apply defined_cons | reflexivity].
Qed.

(** *** Machine arithmetic *)

Lemma to_size_t_small z : 0 <= z < SIZE_T_MODULUS -> to_size_t z = z.
Proof. intros; unfold to_size_t; apply Z.mod_small; assumption. Qed.

Lemma to_size_t_le z : 0 <= z -> to_size_t z <= z.
Proof.
  intros; unfold to_size_t, SIZE_T_MODULUS.
  apply Z.mod_le; lia.
Qed.

Lemma INT_MAX_lt_SIZE : INT_MAX < SIZE_T_MODULUS.
Proof. reflexivity. Qed.

Lemma to_int_small z : 0 <= z <= INT_MAX -> to_int z = z.
Proof.
  intros Hz. unfold to_int.
  assert (HImax : INT_MAX = 2147483647) by reflexivity.
  assert (HImin : INT_MIN = -2147483648) by reflexivity.
  change (2 ^ 32) with 4294967296.
  rewrite Z.mod_small; lia.
Qed.

(** [getNumberOfKeyframes] is the number of stored frames when that number
    is an [int]. *)
Lemma getNumberOfKeyframes_small s :
  Z.of_nat (length (frames s)) <= INT_MAX ->
  getNumberOfKeyframes s = Ok (Z.of_nat (length (frames s))) s [].
Proof.
  destruct s as [fs it c]; cbn [frames]; intros Hn.
  unfold getNumberOfKeyframes. steps.
  rewrite to_int_small by lia. reflexivity.
Qed.

(** *** [canAnimate] *)

Lemma canAnimate_live s :
  (iter s < length (frames s))%nat ->
  canAnimate s
  = Ok (to_size_t (currFrameNum s) <? to_size_t (Z.of_nat (length (frames s)) - 2)) s [].
Proof.
  intros Hlt. unfold canAnimate, bind at 1.
  rewrite (defined_live s Hlt). reflexivity.
Qed.

Lemma canAnimate_empty it c :
  canAnimate (mkScript (@nil Frame) it c) = Ok false Script_new [].
Proof. reflexivity. Qed.

(** On a store of at least two keyframes with the cursor on an element and
    a non-negative ordinal, [canAnimate] is the comparison in the integers. *)
Lemma canAnimate_iff_two_more s :
  (iter s < length (frames s))%nat ->
  (2 <= length (frames s))%nat ->
  Z.of_nat (length (frames s)) < SIZE_T_MODULUS ->
  0 <= currFrameNum s <= INT_MAX ->
  (canAnimate s = Ok true s []
   <-> (3 <= length (frames s))%nat
       /\ currFrameNum s <= Z.of_nat (length (frames s)) - 3).
Proof.
  intros Hlt H2 Hsz Hc.
  rewrite (canAnimate_live s Hlt).
  pose proof INT_MAX_lt_SIZE as HI.
  rewrite (to_size_t_small (currFrameNum s)) by lia.
  rewrite (to_size_t_small (Z.of_nat (length (frames s)) - 2)) by lia.
  destruct (Z.ltb_spec (currFrameNum s) (Z.of_nat (length (frames s)) - 2)) as [Hb|Hb].
  - split; [intros _; lia | reflexivity].
  - split; [discriminate | intros [? ?]; lia].
Qed.

(** C1: on a store that holds a single keyframe, with the cursor on it,
    [canAnimate()] returns true although the sequence holds fewer than three
    frames: the [size_t] subtraction [frames.size() - 2] wraps around. *)
Theorem canAnimate_true_on_single_keyframe :
  forall f,
    canAnimate (Script_of [f]) = Ok true (Script_of [f]) []
    /\ length (frames (Script_of [f])) = 1%nat
    /\ currFrameNum (Script_of [f]) = 0.
Proof. intros f. repeat split. Qed.

(** *** [interpolate] *)

Lemma nth_error_ltb {A} (l : list A) i x :
  nth_error l i = Some x -> (i <? length l)%nat = true.
Proof.
  intros H. apply Nat.ltb_lt. apply nth_error_Some. congruence.
Qed.

(** With the four context frames in the list, [interpolate] returns, shows
    the blend of the four, and leaves the store as it found it. *)
Lemma interpolate_in_range s alpha k prevFrame firstFrame secondFrame afterFrame :
  iter s = S k ->
  nth_error (frames s) k = Some prevFrame ->
  nth_error (frames s) (S k) = Some firstFrame ->
  nth_error (frames s) (S (S k)) = Some secondFrame ->
  nth_error (frames s) (S (S (S k))) = Some afterFrame ->
  interpolate alpha s
  = Ok tt s [ShowFrameInScene
               (Frame_interpolate prevFrame firstFrame secondFrame afterFrame alpha)].
Proof.
  destruct s as [fs it c]; cbn [frames iter]; intros -> Hp Hf Hs Ha.
  pose proof (nth_error_ltb _ _ _ Hp) as Lp.
  pose proof (nth_error_ltb _ _ _ Hf) as Lf.
  pose proof (nth_error_ltb _ _ _ Hs) as Ls.
  unfold interpolate. steps.
  rewrite Hp, Lp, Hf, Lf, Hs, Ls, Ha. reflexivity.
Qed.

(** Whatever the store, a call of [interpolate] that returns leaves
    the store as it found it. *)
Lemma interpolate_returns_same s alpha s' out :
  interpolate alpha s = Ok tt s' out -> s' = s.
Proof.
  destruct s as [fs it c]. unfold interpolate. steps.
  destruct it as [|k]; [discriminate|].
  destruct (nth_error fs k) as [p|]; [|discriminate].
  destruct (k <? length fs)%nat; [|discriminate].
  destruct (nth_error fs (S k)) as [f1|]; [|discriminate].
  destruct (S k <? length fs)%nat; [|discriminate].
  destruct (nth_error fs (S (S k))) as [f2|]; [|discriminate].
  destruct (S (S k) <? length fs)%nat; [|discriminate].
  destruct (nth_error fs (S (S (S k)))) as [a|]; [|discriminate].
  intros H; inversion H; reflexivity.
Qed.

(** Under the store invariants, a true [canAnimate()] puts the two frames
    after the cursor in the list; the frame before the cursor is there when
    the cursor is not on the first element. *)
Lemma canAnimate_context_after s :
  ordinal_ok s ->
  (iter s < length (frames s))%nat ->
  (2 <= length (frames s))%nat ->
  Z.of_nat (length (frames s)) <= INT_MAX ->
  canAnimate s = Ok true s [] ->
  (iter s + 2 < length (frames s))%nat.
Proof.
  intros Hord Hlt H2 Hsz Hcan.
  pose proof INT_MAX_lt_SIZE as HI.
  apply canAnimate_iff_two_more in Hcan; try lia.
  - rewrite (Hord Hlt) in Hcan. lia.
  - rewrite (Hord Hlt). lia.
Qed.

(** C2: [canAnimate()] is true on a store of four keyframes with the cursor
    on the first one, and on a store of a single keyframe; in both
    [interpolate] steps the iterator back from [begin()]. *)
Theorem interpolate_steps_before_begin_after_canAnimate :
  forall (a b c d : Frame) (alpha : Alpha),
    (canAnimate (Script_of [a; b; c; d]) = Ok true (Script_of [a; b; c; d]) []
     /\ interpolate alpha (Script_of [a; b; c; d])
        = Fault DecrementBegin (Script_of [a; b; c; d]) [])
    /\ (canAnimate (Script_of [a]) = Ok true (Script_of [a]) []
        /\ interpolate alpha (Script_of [a]) = Fault DecrementBegin (Script_of [a]) []).
Proof. intros. repeat split. Qed.

(** C8: when the frame before the cursor, the frame under it and the two
    frames after it are in the list, [interpolate(alpha)] returns with the
    same frames, the same cursor and the same [currFrameNum], having shown
    the blend of the four frames; and no call of [interpolate] that returns
    changes the store. *)
Theorem interpolate_leaves_store_unchanged :
  forall s alpha k prevFrame firstFrame secondFrame afterFrame,
    iter s = S k ->
    nth_error (frames s) k = Some prevFrame ->
    nth_error (frames s) (S k) = Some firstFrame ->
    nth_error (frames s) (S (S k)) = Some secondFrame ->
    nth_error (frames s) (S (S (S k))) = Some afterFrame ->
    (exists s' out,
        interpolate alpha s = Ok tt s' out
        /\ frames s' = frames s
        /\ iter s' = iter s
        /\ currFrameNum s' = currFrameNum s
        /\ out = [ShowFrameInScene
                    (Frame_interpolate prevFrame firstFrame secondFrame afterFrame alpha)])
    /\ (forall s' out, interpolate alpha s = Ok tt s' out -> s' = s).
Proof.
  intros s alpha k p f1 f2 a Hit Hp Hf Hs Ha. split.
  - exists s, [ShowFrameInScene (Frame_interpolate p f1 f2 a alpha)].
    rewrite (interpolate_in_range s alpha k p f1 f2 a Hit Hp Hf Hs Ha).
    repeat split.
  - intros s' out. apply interpolate_returns_same.
Qed.

(** *** List insertion and erasure *)

Lemma list_insert_length {A} p (x : A) l :
  length (list_insert p x l) = S (length l).
Proof.
  unfold list_insert. rewrite length_app. cbn [length].
  rewrite length_firstn, length_skipn. lia.
Qed.

Lemma list_insert_nth_new {A} p (x : A) l :
  (p <= length l)%nat -> nth_error (list_insert p x l) p = Some x.
Proof.
  intros Hp. unfold list_insert.
  rewrite nth_error_app2; rewrite length_firstn, Nat.min_l by lia; [|lia].
  rewrite Nat.sub_diag. reflexivity.
Qed.

Lemma list_insert_nth_before {A} p (x : A) l i :
  (i < p)%nat -> (p <= length l)%nat ->
  nth_error (list_insert p x l) i = nth_error l i.
Proof.
  intros Hi Hp. unfold list_insert.
  rewrite nth_error_app1 by (rewrite length_firstn; lia).
  rewrite nth_error_firstn.
  apply Nat.ltb_lt in Hi. rewrite Hi. reflexivity.
Qed.

Lemma list_insert_nth_after {A} p (x : A) l i :
  (p <= i)%nat -> (p <= length l)%nat ->
  nth_error (list_insert p x l) (S i) = nth_error l i.
Proof.
  intros Hi Hp. unfold list_insert.
  rewrite nth_error_app2; rewrite length_firstn, Nat.min_l by lia; [|lia].
  replace (S i - p)%nat with (S (i - p)) by lia. cbn [nth_error].
  rewrite nth_error_skipn. f_equal. lia.
Qed.

Lemma list_erase_length {A} p (l : list A) :
  (p < length l)%nat -> S (length (list_erase p l)) = length l.
Proof.
  intros Hp. unfold list_erase.
  rewrite length_app, length_firstn, length_skipn. lia.
Qed.

Lemma list_erase_nth_before {A} p (l : list A) i :
  (i < p)%nat -> (p < length l)%nat ->
  nth_error (list_erase p l) i = nth_error l i.
Proof.
  intros Hi Hp. unfold list_erase.
  rewrite nth_error_app1 by (rewrite length_firstn; lia).
  rewrite nth_error_firstn.
  apply Nat.ltb_lt in Hi. rewrite Hi. reflexivity.
Qed.

Lemma list_erase_nth_after {A} p (l : list A) i :
  (p <= i)%nat -> (p < length l)%nat ->
  nth_error (list_erase p l) i = nth_error l (S i).
Proof.
  intros Hi Hp. unfold list_erase.
  rewrite nth_error_app2; rewrite length_firstn, Nat.min_l by lia; [|lia].
  rewrite nth_error_skipn. f_equal. lia.
Qed.

(** *** [deleteCurrentFrame] *)

(** Deleting a keyframe that is not the first one: the cursor goes to the
    element before it, which is shown; [currFrameNum] is not touched. *)
Lemma deleteCurrentFrame_not_first s k :
  iter s = S k ->
  (S k < length (frames s))%nat ->
  exists f,
    nth_error (frames s) k = Some f
    /\ deleteCurrentFrame s
       = Ok tt (mkScript (list_erase (S k) (frames s)) k (currFrameNum s))
            [ShowFrameInScene f].
Proof.
  destruct s as [fs it c]; cbn [frames iter currFrameNum]; intros -> Hlt.
  destruct (nth_error fs k) as [f|] eqn:Hk.
  2:{ apply nth_error_None in Hk. lia. }
  exists f. split; [reflexivity|].
  unfold deleteCurrentFrame, bind at 1.
  rewrite defined_live by (cbn [frames iter]; exact Hlt).
  steps. cbn [Nat.eqb].
  apply Nat.ltb_lt in Hlt as Hb. rewrite Hb.
  unfold after_erase.
  replace (S k <? k)%nat with false by (symmetry; apply Nat.ltb_ge; lia).
  rewrite list_erase_nth_before, Hk by lia. reflexivity.
Qed.

(** Deleting the first keyframe of at least two: the cursor goes to the
    element that followed it, which is shown. *)
Lemma deleteCurrentFrame_first f g rest c :
  deleteCurrentFrame (mkScript (f :: g :: rest) 0 c)
  = Ok tt (mkScript (g :: rest) 0 c) [ShowFrameInScene g].
Proof. reflexivity. Qed.

(** Deleting the only keyframe: after the erasure the cursor is [end()] of
    the empty list, and the unguarded [iter->showFrameInScene()] reads
    through it. *)
Lemma deleteCurrentFrame_only f c :
  deleteCurrentFrame (mkScript [f] 0 c) = Fault DereferenceEnd (mkScript [] 0 c) [].
Proof. reflexivity. Qed.

(** C3: with keyframes [a; b; c] and the cursor on [b] at ordinal 1, a store
    that is reached by one [advanceCurrentFrame()] and in which the ordinal
    is the distance from the first element, [deleteCurrentFrame()] puts the
    cursor on [a], at distance 0, and leaves [currFrameNum] at 1. *)
Theorem deleteCurrentFrame_breaks_ordinal_invariant :
  forall a b c : Frame,
    reachable (mkScript [a; b; c] 1 1)
    /\ ordinal_ok (mkScript [a; b; c] 1 1)
    /\ exec DeleteCurrentFrame (mkScript [a; b; c] 1 1)
       = Ok tt (mkScript [a; c] 0 1) [ShowFrameInScene a]
    /\ cursor_ok (mkScript [a; c] 0 1)
    /\ ~ ordinal_ok (mkScript [a; c] 0 1).
Proof.
  intros a b c. split; [|split; [|split; [|split]]].
  - apply (reachable_call (Script_of [a; b; c]) AdvanceCurrentFrame _
             [Cout (AdvancingToFrame 1); ShowFrameInScene b]).
    + apply reachable_of.
    + exact I.
    + reflexivity.
  - intros _. reflexivity.
  - reflexivity.
  - right. cbn. lia.
  - intros H. specialize (H ltac:(cbn; lia)). discriminate H.
Qed.

(** C4: on [a; b; c] with the cursor on [b] at ordinal 1,
    [deleteCurrentFrame()] leaves the sequence [a; c] with the cursor on
    [a], and [currFrameNum] still 1, not 0. *)
Theorem deleteCurrentFrame_middle_of_three :
  forall a b c : Frame,
    exists s',
      deleteCurrentFrame (mkScript [a; b; c] 1 1) = Ok tt s' [ShowFrameInScene a]
      /\ frames s' = [a; c]
      /\ nth_error (frames s') (iter s') = Some a
      /\ iter s' = 0%nat
      /\ currFrameNum s' = 1.
Proof.
  intros a b c. exists (mkScript [a; c] 0 1). repeat split.
Qed.

(** C5: with exactly one keyframe and the cursor on it,
    [deleteCurrentFrame()] empties the list and then reads through the
    past-the-end iterator; in the store it has at that point the list is
    empty and [defined()] returns false. *)
Theorem deleteCurrentFrame_only_keyframe_reads_end :
  forall (f : Frame) (c : Z),
    defined (mkScript [f] 0 c) = Ok true (mkScript [f] 0 c) []
    /\ exists s',
         deleteCurrentFrame (mkScript [f] 0 c) = Fault DereferenceEnd s' []
         /\ frames s' = []
         /\ nth_error (frames s') (iter s') = None
         /\ defined s' = Ok false Script_new [].
Proof.
  intros f c. split; [reflexivity|].
  exists (mkScript [] 0 c). repeat split.
Qed.

(** *** [createNewFrameFromSceneAfterCurrentFrame] *)

Lemma createNewFrame_live rootNode s :
  (iter s < length (frames s))%nat ->
  currFrameNum s < INT_MAX ->
  createNewFrameFromSceneAfterCurrentFrame rootNode s
  = Ok tt
      (mkScript (list_insert (S (iter s)) (Frame_fromScene rootNode) (frames s))
                (S (iter s)) (currFrameNum s + 1))
      [Cout (AddingNewFrame (currFrameNum s + 1));
       ShowFrameInScene (Frame_fromScene rootNode)].
Proof.
  destruct s as [fs it c]; cbn [frames iter currFrameNum]; intros Hlt Hc.
  unfold createNewFrameFromSceneAfterCurrentFrame.
  cbv zeta. unfold bind at 1. unfold bind at 1.
  rewrite defined_live by (cbn [frames iter]; exact Hlt).
  steps.
  apply Nat.ltb_lt in Hlt as Hb. rewrite Hb.
  unfold after_insert. rewrite Nat.leb_refl.
  replace (c =? INT_MAX) with false by (symmetry; apply Z.eqb_neq; lia).
  rewrite list_insert_nth_new by lia. reflexivity.
Qed.


(** When [defined()] is false on a store that is not empty (the cursor is
    [end()]), the new frame goes to the back of the list and the cursor to
    the first element. *)
Lemma createNewFrame_at_end rootNode f fs c :
  createNewFrameFromSceneAfterCurrentFrame rootNode (mkScript (f :: fs) (length (f :: fs)) c)
  = Ok tt (mkScript ((f :: fs) ++ [Frame_fromScene rootNode]) 0 0)
      [Cout (AddingNewFrame 0); ShowFrameInScene f].
Proof.
  unfold createNewFrameFromSceneAfterCurrentFrame.
  cbv zeta. unfold bind at 1. unfold bind at 1.
  rewrite defined_cons, Nat.eqb_refl.
  steps. unfold list_insert. rewrite firstn_all, skipn_all.
  reflexivity.
Qed.

Lemma defined_true_inv s s1 o1 :
  defined s = Ok true s1 o1 ->
  frames s <> [] /\ iter s <> length (frames s) /\ s1 = s.
Proof.
  destruct s as [[|f fs] it c].
  - rewrite defined_empty. discriminate.
  - rewrite defined_cons. intros H. inversion H as [[Hb Hs Ho]].
    cbn [frames iter]. repeat split.
    + discriminate.
    + apply Nat.eqb_neq. destruct (it =? length (f :: fs))%nat; [discriminate|reflexivity].
Qed.

Lemma defined_false_inv s s1 o1 :
  defined s = Ok false s1 o1 ->
  frames s = [] \/ iter s = length (frames s).
Proof.
  destruct s as [[|f fs] it c].
  - intros _. left. reflexivity.
  - rewrite defined_cons. intros H. inversion H as [[Hb Hs Ho]].
    right. cbn [frames iter]. apply Nat.eqb_eq.
    destruct (it =? length (f :: fs))%nat; [reflexivity|discriminate].
Qed.


(** *** [advanceCurrentFrame] and [regressCurrentFrame] *)

Lemma advanceCurrentFrame_step s f :
  nth_error (frames s) (S (iter s)) = Some f ->
  (to_size_t (currFrameNum s) <? to_size_t (Z.of_nat (length (frames s)) - 1)) = true ->
  currFrameNum s < INT_MAX ->
  advanceCurrentFrame s
  = Ok tt (mkScript (frames s) (S (iter s)) (currFrameNum s + 1))
       [Cout (AdvancingToFrame (currFrameNum s + 1)); ShowFrameInScene f].
Proof.
  destruct s as [fs it c]; cbn [frames iter currFrameNum]; intros Hf Hg Hc.
  assert (Hlt : (S it < length fs)%nat) by (apply nth_error_Some; congruence).
  unfold advanceCurrentFrame. unfold bind at 1. unfold bind at 1.
  rewrite defined_live by (cbn [frames iter]; lia).
  steps. rewrite Hg. steps.
  replace (it <? length fs)%nat with true by (symmetry; apply Nat.ltb_lt; lia).
  replace (c =? INT_MAX) with false by (symmetry; apply Z.eqb_neq; lia).
  steps. rewrite Hf. reflexivity.
Qed.

Lemma advanceCurrentFrame_blocked s :
  (iter s < length (frames s))%nat ->
  (to_size_t (currFrameNum s) <? to_size_t (Z.of_nat (length (frames s)) - 1)) = false ->
  advanceCurrentFrame s = Ok tt s [].
Proof.
  destruct s as [fs it c]; cbn [frames iter currFrameNum]; intros Hlt Hg.
  unfold advanceCurrentFrame. unfold bind at 1. unfold bind at 1.
  rewrite defined_live by (cbn [frames iter]; lia).
  steps. rewrite Hg. reflexivity.
Qed.

Lemma regressCurrentFrame_step s k f :
  iter s = S k ->
  (S k < length (frames s))%nat ->
  nth_error (frames s) k = Some f ->
  INT_MIN < currFrameNum s ->
  regressCurrentFrame s
  = Ok tt (mkScript (frames s) k (currFrameNum s - 1))
       [Cout (RegressingToFrame (currFrameNum s - 1)); ShowFrameInScene f].
Proof.
  destruct s as [fs it c]; cbn [frames iter currFrameNum]; intros -> Hlt Hf Hc.
  unfold regressCurrentFrame. unfold bind at 1.
  rewrite defined_live by (cbn [frames iter]; lia).
  steps. cbn [Nat.eqb].
  replace (c =? INT_MIN) with false by (symmetry; apply Z.eqb_neq; lia).
  rewrite Hf. reflexivity.
Qed.

(** When [currFrameNum] is the distance from the first element to the
    cursor and the count fits an [int], stepping forward from an element
    that has a successor and then back restores the store. *)
Lemma advance_then_regress_restores s :
  ordinal_ok s ->
  (S (iter s) < length (frames s))%nat ->
  Z.of_nat (length (frames s)) <= INT_MAX ->
  exists out, (advanceCurrentFrame ;; regressCurrentFrame) s = Ok tt s out.
Proof.
  intros Hord Hlt Hsz.
  pose proof INT_MAX_lt_SIZE as HI.
  assert (Hc : currFrameNum s = Z.of_nat (iter s)) by (apply Hord; lia).
  destruct (nth_error (frames s) (S (iter s))) as [f|] eqn:Hf.
  2:{ apply nth_error_None in Hf. lia. }
  destruct (nth_error (frames s) (iter s)) as [g|] eqn:Hg.
  2:{ apply nth_error_None in Hg. lia. }
  assert (HImax : INT_MAX = 2147483647) by reflexivity.
  assert (HImin : INT_MIN = -2147483648) by reflexivity.
  exists ([Cout (AdvancingToFrame (currFrameNum s + 1)); ShowFrameInScene f]
          ++ [Cout (RegressingToFrame (currFrameNum s + 1 - 1)); ShowFrameInScene g]).
  unfold bind.
  rewrite (advanceCurrentFrame_step s f Hf).
  - rewrite (regressCurrentFrame_step _ (iter s) g); cbn [frames iter currFrameNum];
      try reflexivity; try assumption; try lia.
    destruct s as [fs it c]; cbn [frames iter currFrameNum].
    replace (c + 1 - 1) with c by lia. reflexivity.
  - apply Z.ltb_lt. rewrite !to_size_t_small; lia.
  - lia.
Qed.

(** C9: the store [a; b; d] with the cursor on [b] and [currFrameNum] 2 is
    what two [advanceCurrentFrame()] and one [deleteCurrentFrame()] make of
    the loaded sequence [a; b; c; d].  Its cursor is defined and not on the
    last element, yet [advanceCurrentFrame()] does nothing there and the
    following [regressCurrentFrame()] moves the cursor to [a]. *)
Theorem advance_regress_moves_cursor_after_delete :
  forall a b c d : Frame,
    (advanceCurrentFrame ;; advanceCurrentFrame ;; deleteCurrentFrame) (Script_of [a; b; c; d])
    = Ok tt (mkScript [a; b; d] 1 2)
         [Cout (AdvancingToFrame 1); ShowFrameInScene b;
          Cout (AdvancingToFrame 2); ShowFrameInScene c;
          ShowFrameInScene b]
    /\ defined (mkScript [a; b; d] 1 2) = Ok true (mkScript [a; b; d] 1 2) []
    /\ nth_error (frames (mkScript [a; b; d] 1 2)) (S (iter (mkScript [a; b; d] 1 2))) = Some d
    /\ advanceCurrentFrame (mkScript [a; b; d] 1 2) = Ok tt (mkScript [a; b; d] 1 2) []
    /\ (advanceCurrentFrame ;; regressCurrentFrame) (mkScript [a; b; d] 1 2)
       = Ok tt (mkScript [a; b; d] 0 1) [Cout (RegressingToFrame 1); ShowFrameInScene a].
Proof. intros a b c d. repeat split. Qed.

(** *** What the member functions keep *)

Lemma list_assign_length {A} p (x : A) l :
  (p < length l)%nat -> length (list_assign p x l) = length l.
Proof.
  intros Hp. unfold list_assign.
  rewrite length_app. cbn [length]. rewrite length_firstn, length_skipn. lia.
Qed.

Lemma length_zero_nil {A} (l : list A) : length l = 0%nat -> l = [].
Proof. destruct l; [reflexivity|discriminate]. Qed.

Ltac lengths :=
  repeat match goal with
  | |- context [length (list_insert ?p ?x ?l)] => rewrite (list_insert_length p x l)
  | |- context [length (list_assign ?p ?x ?l)] => rewrite (list_assign_length p x l) by lia
  | |- context [length (list_erase ?p ?l)] =>
      let E := fresh "E" in
      assert (E : S (length (list_erase p l)) = length l) by (apply list_erase_length; lia);
      let m := fresh "m" in
      set (m := length (list_erase p l)) in *; clearbody m
  end.

Ltac size_facts :=
  repeat match goal with
  | H : context [to_size_t ?z] |- _ =>
      lazymatch goal with
      | _ : 0 <= z -> to_size_t z <= z |- _ => fail
      | _ => pose proof (to_size_t_le z); pose proof (to_size_t_small z)
      end
  end.

Lemma exec_preserves_store_inv c s s' out :
  store_inv s -> precondition c s -> exec c s = Ok tt s' out -> store_inv s'.
Proof.
  intros [Hcur Hord] Hpre H.
  pose proof INT_MAX_lt_SIZE as HI.
  assert (HImax : INT_MAX = 2147483647) by reflexivity.
  assert (HSmod : SIZE_T_MODULUS = 18446744073709551616) by reflexivity.
  destruct s as [fs it c0]. cbn [frames iter currFrameNum] in *.
  destruct c; cbn [exec precondition] in H, Hpre;
    unfold getNumberOfKeyframes, canAnimate, showCurrentFrameInScene,
      replaceCurrentFrameFromScene, advanceCurrentFrame, regressCurrentFrame,
      goToBeginning, deleteCurrentFrame, createNewFrameFromSceneAfterCurrentFrame,
      interpolate, writeScriptToFile, defined in H;
    steps_in H; cbn [frames iter currFrameNum] in Hpre.
  all: repeat case_split H.
  all: inversion H; subst; clear H.
  all: unfold store_inv; cbn [frames iter currFrameNum length].
  all: cbn [Nat.pred] in *;
    repeat match goal with
    | H : nth_error _ _ = Some _ |- _ => apply nth_error_ltb in H
    end;
    bools; size_facts.
  all: destruct Hcur as [Hcur | [Hnil Hit0]];
    [| try discriminate Hit0; subst; cbn [length nth_error] in *; try discriminate ].
  all: try lia.
  all: (split; [| lia ]).
  all: first [ left; lengths; lia
             | right; split; [ first [reflexivity | apply length_zero_nil; lia] | lia ]
             | idtac ].
Qed.

Lemma deleteCurrentFrame_fault_inv s s' out (flt : fault) :
  store_inv s ->
  deleteCurrentFrame s = Fault flt s' out ->
  flt = DereferenceEnd /\ length (frames s) = 1%nat /\ store_inv s'.
Proof.
  intros [Hcur Hord] H.
  destruct s as [fs it c0]. cbn [frames iter currFrameNum] in *.
  unfold deleteCurrentFrame, defined in H; steps_in H.
  repeat case_split H.
  all: inversion H; subst; clear H.
  all: unfold store_inv; cbn [frames iter currFrameNum length Nat.pred] in *.
  all: bools.
  all: destruct Hcur as [Hcur | [Hnil Hit0]];
    [| try discriminate Hit0; subst; cbn [length nth_error] in *; try discriminate ].
  all: try lia.
  all: match goal with
       | H : (length (list_erase ?p ?l) <= _)%nat |- _ =>
           pose proof (list_erase_length p l ltac:(lia))
       end.
  all: repeat split; try lia.
  all: right; split; [apply length_zero_nil; lia | lia].
Qed.

Theorem reachable_store_inv s : reachable s -> store_inv s.
Proof.
  induction 1 as [| l | s c s' out Hr IH Hpre Hex | s s' out Hr IH Hdel].
  - split; [right; split; reflexivity | cbn; lia].
  - split; [| cbn; lia].
    destruct l as [|f l]; [right; split; reflexivity | left; cbn; lia].
  - exact (exec_preserves_store_inv c s s' out IH Hpre Hex).
  - apply (deleteCurrentFrame_fault_inv s s' out DereferenceEnd IH Hdel).
Qed.

(** C6: in every store obtained from a constructed store by public calls
    that return, where [advanceIter()] is only called with the cursor on an
    element that has a successor, [defined()] returns, and it returns false
    exactly when no keyframe is stored (exactly when
    [getNumberOfKeyframes()] is 0, for a number of frames that is an [int]);
    when none is stored, the call leaves the cursor at [begin()] of the
    empty list with [currFrameNum] 0. *)
Theorem defined_false_iff_no_keyframes :
  forall s,
    reachable s ->
    exists b s',
      defined s = Ok b s' []
      /\ (b = false <-> length (frames s) = 0%nat)
      /\ (Z.of_nat (length (frames s)) <= INT_MAX ->
          exists n, getNumberOfKeyframes s = Ok n s [] /\ (b = false <-> n = 0))
      /\ frames s' = frames s
      /\ (length (frames s) = 0%nat -> iter s' = 0%nat /\ currFrameNum s' = 0).
Proof.
  intros s Hr. apply reachable_store_inv in Hr as [Hcur _].
  destruct s as [[|f fs] it c].
  - exists false, Script_new. rewrite defined_empty.
    split; [reflexivity|]. split; [split; reflexivity|].
    split; [|split; [reflexivity | split; reflexivity]].
    intros Hn. exists 0. split; [reflexivity | split; reflexivity].
  - exists true, (mkScript (f :: fs) it c).
    cbn [frames iter] in Hcur.
    rewrite defined_live
      by (cbn [frames iter]; destruct Hcur as [?|[? _]]; [assumption|discriminate]).
    split; [reflexivity|]. split; [split; discriminate|].
    split; [|split; [reflexivity | discriminate]].
    intros Hn. exists (Z.of_nat (length (f :: fs))).
    split; [apply getNumberOfKeyframes_small; exact Hn|].
    split; [discriminate | cbn [length]; lia].
Qed.

(** The guard of [advanceCurrentFrame] when [currFrameNum] is the index of
    the cursor: it holds only if the cursor has a successor. *)
Lemma advance_guard_has_successor it n :
  (it < n)%nat ->
  to_size_t (Z.of_nat it) < to_size_t (Z.of_nat n - 1) ->
  (S it < n)%nat.
Proof.
  intros Hlt Hg.
  destruct (Nat.eq_dec (S it) n) as [E|E]; [|lia].
  replace (Z.of_nat n - 1) with (Z.of_nat it) in Hg by lia. lia.
Qed.

(** Every member function other than [deleteCurrentFrame] keeps
    [currFrameNum] equal to the distance from the first element to the
    cursor, and keeps the cursor on an element of a list that is not empty. *)
Lemma exec_preserves_ordinal_ok c s s' out :
  c <> DeleteCurrentFrame ->
  cursor_ok s -> ordinal_ok s -> precondition c s ->
  exec c s = Ok tt s' out ->
  cursor_ok s' /\ ordinal_ok s'.
Proof.
  intros Hc Hcur Hord Hpre H.
  destruct s as [fs it c0]. unfold cursor_ok, ordinal_ok in *.
  cbn [frames iter currFrameNum] in *.
  destruct c; [ | | | | | | | | | contradiction | | | ];
    cbn [exec precondition] in H, Hpre;
    unfold getNumberOfKeyframes, canAnimate, showCurrentFrameInScene,
      replaceCurrentFrameFromScene, advanceCurrentFrame, regressCurrentFrame,
      goToBeginning, createNewFrameFromSceneAfterCurrentFrame,
      interpolate, writeScriptToFile, defined in H;
    steps_in H; cbn [frames iter currFrameNum] in Hpre.
  all: repeat case_split H.
  all: inversion H; subst; clear H.
  all: cbn [frames iter currFrameNum length Nat.pred] in *.
  all: repeat match goal with
       | H : nth_error _ _ = Some _ |- _ => apply nth_error_ltb in H
       end;
       bools.
  all: destruct Hcur as [Hnil | Hcur];
    [ subst; cbn [length nth_error] in *; try discriminate; try lia |].
  all: try (specialize (Hord ltac:(lia)); subst c0).
  all: try match goal with
       | H : to_size_t (Z.of_nat ?i) < to_size_t (Z.of_nat ?n - 1) |- _ =>
           apply advance_guard_has_successor in H; [|lia]
       end.
  all: split;
    [ first [ right; lengths; lia
            | left; first [reflexivity | apply length_zero_nil; lia] ]
    | intros ?; try lia ].
Qed.

(** *** Reading the script file *)

Lemma append_empty_r (l : string) : (l ++ EmptyString)%string = l.
Proof. induction l as [|c l IH]; cbn; [reflexivity | rewrite IH; reflexivity]. Qed.

Lemma append_assoc (a b c : string) : ((a ++ b) ++ c)%string = (a ++ (b ++ c))%string.
Proof. induction a as [|x a IH]; cbn; [reflexivity | rewrite IH; reflexivity]. Qed.

Lemma split_line_rest_length file :
  (String.length (snd (split_line file)) <= String.length file)%nat.
Proof.
  induction file as [|c rest IH]; cbn; [lia|].
  destruct (Ascii.eqb c newline); cbn; [lia|].
  destruct (split_line rest) as [l r]. cbn in *. lia.
Qed.

Lemma getline_shorter file line file' :
  getline file = Some (line, file') ->
  (String.length file' < String.length file)%nat.
Proof.
  destruct file as [|c rest]; [discriminate|].
  cbn. pose proof (split_line_rest_length rest) as Hle.
  destruct (Ascii.eqb c newline).
  - intros H; inversion H; subst. lia.
  - destruct (split_line rest) as [l r]. intros H; inversion H; subst. cbn in Hle. lia.
Qed.

Lemma file_lines_from_split file line started :
  started = true \/ file <> EmptyString ->
  file_lines_from line started file
  = (line ++ fst (split_line file))%string :: file_lines (snd (split_line file)).
Proof.
  revert line started.
  induction file as [|c rest IH]; intros line started Hs.
  - destruct Hs as [->|Hne]; [|contradiction].
    cbn. rewrite append_empty_r. reflexivity.
  - cbn. destruct (Ascii.eqb c newline).
    + cbn. rewrite append_empty_r. reflexivity.
    + rewrite (IH _ true) by (left; reflexivity).
      destruct (split_line rest) as [l r]. cbn.
      rewrite append_assoc. reflexivity.
Qed.

Lemma getline_file_lines file line file' :
  getline file = Some (line, file') ->
  file_lines file = line :: file_lines file'.
Proof.
  destruct file as [|c rest]; [discriminate|].
  unfold getline. intros H. unfold file_lines at 1.
  rewrite file_lines_from_split by (right; discriminate).
  destruct (split_line (String c rest)) as [l r].
  inversion H; subst. reflexivity.
Qed.

(** The reading loop ends within the fuel it is given and collects the
    lines of the file. *)
Lemma read_lines_file_lines fuel file serialized :
  (String.length file < fuel)%nat ->
  read_lines fuel file serialized = Done (serialized ++ file_lines file).
Proof.
  revert file serialized.
  induction fuel as [|fuel IH]; intros file serialized Hlt; [lia|].
  cbn [read_lines].
  destruct (getline file) as [[line file']|] eqn:Hg.
  - pose proof (getline_shorter _ _ _ Hg).
    rewrite IH by lia.
    rewrite (getline_file_lines _ _ _ Hg), <- app_assoc. reflexivity.
  - destruct file; [|discriminate]. cbn. rewrite app_nil_r. reflexivity.
Qed.

Lemma skipn_nth_cons {A} (l : list A) k d :
  (k < length l)%nat -> skipn k l = nth k l d :: skipn (S k) l.
Proof.
  revert k. induction l as [|x l IH]; intros k Hk; cbn in Hk; [lia|].
  destruct k as [|k]; [reflexivity|].
  cbn [skipn nth]. apply IH. lia.
Qed.

(** The deserializing loop ends within the fuel it is given when the
    number of lines is an [int], and deserializes the lines in order. *)
Lemma deserialize_loop_map fuel (rootNode : SgRootNode) serialized k newFrames :
  Z.of_nat (length serialized) <= INT_MAX ->
  (k <= length serialized)%nat ->
  (length serialized - k < fuel)%nat ->
  deserialize_loop fuel rootNode serialized (Z.of_nat k) newFrames
  = Done (newFrames ++ map (Frame_deserialize rootNode) (skipn k serialized)).
Proof.
  intros Hmax. revert k newFrames.
  pose proof INT_MAX_lt_SIZE as HI.
  assert (HImax : INT_MAX = 2147483647) by reflexivity.
  induction fuel as [|fuel IH]; intros k newFrames Hk Hfuel; [lia|].
  cbn [deserialize_loop].
  rewrite to_size_t_small by lia.
  destruct (Z.ltb_spec (Z.of_nat k) (Z.of_nat (length serialized))) as [Hlt|Hge].
  - replace (Z.of_nat k =? INT_MAX) with false by (symmetry; apply Z.eqb_neq; lia).
    replace (Z.of_nat k + 1) with (Z.of_nat (S k)) by lia.
    rewrite IH by lia.
    rewrite Nat2Z.id.
    rewrite (skipn_nth_cons serialized k EmptyString) by lia.
    cbn [map]. rewrite <- app_assoc. reflexivity.
  - replace k with (length serialized) by lia.
    rewrite skipn_all, app_nil_r. reflexivity.
Qed.

Lemma file_lines_from_line l line started rest :
  newline_free l ->
  file_lines_from line started (l ++ String newline rest)
  = (line ++ l)%string :: file_lines rest.
Proof.
  revert line started.
  induction l as [|c l IH]; intros line started Hfree.
  - cbn. rewrite append_empty_r. reflexivity.
  - destruct Hfree as [Hc Hfree]. cbn. rewrite Hc.
    rewrite IH by assumption. rewrite append_assoc. reflexivity.
Qed.

Lemma file_lines_unlines ls :
  Forall newline_free ls -> file_lines (unlines ls) = ls.
Proof.
  induction 1 as [|l ls Hl _ IH]; [reflexivity|].
  cbn [unlines]. unfold file_lines at 1.
  rewrite file_lines_from_line by assumption. rewrite IH. reflexivity.
Qed.


(** ** Further properties of the member functions *)

(** X1: in every store that a client can obtain, the cursor is on a stored
    frame whenever a frame is stored; when none is stored the cursor is at
    [begin()] of the empty list; and [currFrameNum] is an [int] that is not
    below the distance from the first element to the cursor. *)
Theorem reachable_cursor_on_live_frame :
  forall s,
    reachable s ->
    ((exists f, nth_error (frames s) (iter s) = Some f)
     \/ (frames s = [] /\ iter s = 0%nat))
    /\ Z.of_nat (iter s) <= currFrameNum s <= INT_MAX.
Proof.
  intros s Hr. apply reachable_store_inv in Hr as [Hcur Hord].
  split; [|exact Hord].
  destruct Hcur as [Hlt|Hnil]; [left|right; exact Hnil].
  destruct (nth_error (frames s) (iter s)) as [f|] eqn:Hf; [exists f; reflexivity|].
  apply nth_error_None in Hf. lia.
Qed.

(** X3: only [createNewFrameFromSceneAfterCurrentFrame],
    [replaceCurrentFrameFromScene] and [deleteCurrentFrame] touch the list of
    frames: after any other member function, whether it returns or stops at
    a fault, the stored frames are the same, in the same order. *)
Theorem frames_touched_only_by_create_replace_delete :
  forall (c : call) s,
    c <> DeleteCurrentFrame ->
    (forall rootNode, c <> CreateNewFrameFromSceneAfterCurrentFrame rootNode) ->
    (forall rootNode, c <> ReplaceCurrentFrameFromScene rootNode) ->
    match exec c s with
    | Ok _ s' _ => frames s' = frames s
    | Fault _ s' _ => frames s' = frames s
    end.
Proof.
  intros c s Hd Hc Hr.
  destruct s as [fs it c0]. cbn [frames].
  destruct (exec c (mkScript fs it c0)) as [[] s' out|flt s' out] eqn:H.
  all: destruct c;
    [ | | | | | exfalso; eapply Hr; reflexivity | | | | contradiction
      | exfalso; eapply Hc; reflexivity | | ].
  all: cbn [exec] in H;
    unfold getNumberOfKeyframes, canAnimate, showCurrentFrameInScene,
      advanceCurrentFrame, regressCurrentFrame, goToBeginning,
      interpolate, writeScriptToFile, defined in H;
    steps_in H.
  all: repeat case_split H.
  all: inversion H; subst; clear H; cbn [frames].
  all: first [ reflexivity | bools; symmetry; apply length_zero_nil; lia ].
Qed.

(** X4: in a store that a client can obtain, with [currFrameNum] below
    [INT_MAX], every member function that guards itself returns: none of
    [getNumberOfKeyframes], [canAnimate], [showCurrentFrameInScene],
    [replaceCurrentFrameFromScene], [advanceCurrentFrame],
    [regressCurrentFrame], [goToBeginning],
    [createNewFrameFromSceneAfterCurrentFrame] and [writeScriptToFile] steps
    an iterator off the list, reads through [end()] or overflows the
    counter; and [deleteCurrentFrame] returns unless exactly one frame is
    stored. *)
Theorem guarded_calls_return :
  forall (c : call) s,
    reachable s ->
    currFrameNum s < INT_MAX ->
    c <> AdvanceIter -> c <> RegressIter ->
    (forall alpha, c <> Interpolate alpha) ->
    (c = DeleteCurrentFrame -> length (frames s) <> 1%nat) ->
    exists s' out, exec c s = Ok tt s' out.
Proof.
  intros c s Hreach Hmax Ha Hr Hi Hd.
  apply reachable_store_inv in Hreach as [Hcur Hord].
  pose proof INT_MAX_lt_SIZE as HI.
  assert (HImax : INT_MAX = 2147483647) by reflexivity.
  assert (HImin : INT_MIN = -2147483648) by reflexivity.
  assert (HSmod : SIZE_T_MODULUS = 18446744073709551616) by reflexivity.
  destruct s as [fs it c0]. cbn [frames iter currFrameNum] in *.
  destruct (exec c (mkScript fs it c0)) as [[] s' out|flt s' out] eqn:H;
    [exists s', out; reflexivity|].
  exfalso.
  destruct c;
    [ | contradiction | contradiction | | | | | | | | | eapply Hi; reflexivity | ].
  all: cbn [exec] in H;
    unfold getNumberOfKeyframes, canAnimate, showCurrentFrameInScene,
      replaceCurrentFrameFromScene, advanceCurrentFrame, regressCurrentFrame,
      goToBeginning, deleteCurrentFrame, createNewFrameFromSceneAfterCurrentFrame,
      writeScriptToFile, defined in H;
    steps_in H.
  all: repeat case_split H.
  all: try discriminate H.
  all: try specialize (Hd eq_refl).
  all: cbn [Nat.pred length] in *; bools; size_facts.
  all: destruct Hcur as [Hcur | [Hnil Hit0]];
    [| try discriminate Hit0; subst; cbn [length nth_error] in *; try discriminate ].
  all: try lia.
  all: repeat match goal with
       | H : (length (list_insert ?p ?x ?l) <= _)%nat |- _ =>
           rewrite (list_insert_length p x l) in H
       | H : (length (list_assign ?p ?x ?l) <= _)%nat |- _ =>
           rewrite (list_assign_length p x l) in H by lia
       | H : (length (list_erase ?p ?l) <= _)%nat |- _ =>
           pose proof (list_erase_length p l ltac:(lia));
           let m := fresh "m" in
           set (m := length (list_erase p l)) in *; clearbody m
       end.
  all: try lia.
Qed.

Lemma list_assign_nth_same {A} p (x : A) l :
  (p < length l)%nat -> nth_error (list_assign p x l) p = Some x.
Proof.
  intros Hp. unfold list_assign.
  rewrite nth_error_app2; rewrite length_firstn, Nat.min_l by lia; [|lia].
  rewrite Nat.sub_diag. reflexivity.
Qed.

Lemma list_assign_nth_other {A} p (x : A) l j :
  j <> p -> (p < length l)%nat ->
  nth_error (list_assign p x l) j = nth_error l j.
Proof.
  intros Hj Hp. unfold list_assign.
  destruct (Nat.lt_ge_cases j p) as [Hlt|Hge].
  - rewrite nth_error_app1 by (rewrite length_firstn; lia).
    rewrite nth_error_firstn.
    apply Nat.ltb_lt in Hlt. rewrite Hlt. reflexivity.
  - rewrite nth_error_app2; rewrite length_firstn, Nat.min_l by lia; [|lia].
    replace (j - p)%nat with (S (j - S p)) by lia. cbn [nth_error].
    rewrite nth_error_skipn. f_equal. lia.
Qed.

Lemma list_erase_insert {A} p (x : A) l :
  (p <= length l)%nat -> list_erase p (list_insert p x l) = l.
Proof.
  intros Hp. unfold list_erase, list_insert.
  assert (Hlen : length (firstn p l) = p) by (rewrite length_firstn; lia).
  rewrite firstn_app, skipn_app, Hlen.
  rewrite Nat.sub_diag. replace (S p - p)%nat with 1%nat by lia.
  rewrite <- Hlen at 1. rewrite firstn_all.
  rewrite (skipn_all2 (firstn p l)) by lia.
  cbn [firstn skipn app]. rewrite app_nil_r. apply firstn_skipn.
Qed.

(** X5: [goToBeginning()] returns on every store, whatever the cursor and
    the counter were: the frames are kept, the cursor is on the first element
    with [currFrameNum] 0, and that first frame is shown; on a store without
    frames nothing is shown.  The resulting store has the counter equal to
    the cursor's distance from the first element. *)
Theorem goToBeginning_resets_cursor :
  forall s,
    goToBeginning s
    = Ok tt (mkScript (frames s) 0 0)
         (match frames s with
          | [] => []
          | f :: _ => [ShowFrameInScene f]
          end)
    /\ cursor_ok (mkScript (frames s) 0 0)
    /\ ordinal_ok (mkScript (frames s) 0 0).
Proof.
  intros [[|f fs] it c]; cbn [frames].
  - split; [reflexivity|]. split; [left; reflexivity | intros _; reflexivity].
  - split; [reflexivity|]. split; [right; cbn; lia | intros _; reflexivity].
Qed.

(** X6: with the cursor on an element, [replaceCurrentFrameFromScene]
    overwrites that element with the captured frame and shows it: the count,
    every other element, the cursor and [currFrameNum] stay as they were.
    On a store without frames it does what
    [createNewFrameFromSceneAfterCurrentFrame] does. *)
Theorem replaceCurrentFrameFromScene_overwrites_current :
  forall (rootNode : SgRootNode) s,
    ((iter s < length (frames s))%nat ->
     exists s',
       replaceCurrentFrameFromScene rootNode s
       = Ok tt s' [ShowFrameInScene (Frame_fromScene rootNode)]
       /\ length (frames s') = length (frames s)
       /\ nth_error (frames s') (iter s) = Some (Frame_fromScene rootNode)
       /\ (forall j, j <> iter s -> nth_error (frames s') j = nth_error (frames s) j)
       /\ iter s' = iter s
       /\ currFrameNum s' = currFrameNum s)
    /\ (frames s = [] ->
        replaceCurrentFrameFromScene rootNode s
        = createNewFrameFromSceneAfterCurrentFrame rootNode s).
Proof.
  intros rootNode [fs it c]; cbn [frames iter currFrameNum]. split.
  - intros Hlt.
    exists (mkScript (list_assign it (Frame_fromScene rootNode) fs) it c).
    split.
    + unfold replaceCurrentFrameFromScene, bind at 1.
      rewrite defined_live by (cbn [frames iter]; exact Hlt).
      steps. apply Nat.ltb_lt in Hlt as Hb. rewrite Hb. steps.
      rewrite list_assign_nth_same by exact Hlt. reflexivity.
    + cbn [frames iter currFrameNum]. repeat split.
      * apply list_assign_length; exact Hlt.
      * apply list_assign_nth_same; exact Hlt.
      * intros j Hj. apply list_assign_nth_other; assumption.
  - intros ->. reflexivity.
Qed.

(** X7: with at least two frames stored and the cursor on one of them,
    [deleteCurrentFrame()] returns: exactly the frame under the cursor is
    removed, the frames before it and after it keep their order, the cursor
    is on the frame that was before the removed one (on the one that followed
    it when the first frame was removed), that frame is shown, and
    [currFrameNum] is not changed. *)
Theorem deleteCurrentFrame_removes_current :
  forall s,
    (iter s < length (frames s))%nat ->
    (2 <= length (frames s))%nat ->
    exists s' f,
      deleteCurrentFrame s = Ok tt s' [ShowFrameInScene f]
      /\ S (length (frames s')) = length (frames s)
      /\ (forall j, (j < iter s)%nat -> nth_error (frames s') j = nth_error (frames s) j)
      /\ (forall j, (iter s <= j)%nat -> nth_error (frames s') j = nth_error (frames s) (S j))
      /\ iter s' = Nat.pred (iter s)
      /\ nth_error (frames s') (iter s') = Some f
      /\ nth_error (frames s) (match iter s with O => 1%nat | S k => k end) = Some f
      /\ currFrameNum s' = currFrameNum s.
Proof.
  intros s Hlt H2.
  destruct (iter s) as [|k] eqn:Hit.
  - destruct s as [[|f [|g rest]] it c]; cbn [frames iter length] in *;
      try lia. subst it.
    exists (mkScript (g :: rest) 0 c), g.
    rewrite deleteCurrentFrame_first. cbn [frames iter currFrameNum length Nat.pred].
    split; [reflexivity|]. split; [reflexivity|].
    split; [intros j Hj; lia|].
    split; [intros j _; reflexivity|].
    repeat split.
  - destruct (deleteCurrentFrame_not_first s k Hit Hlt) as (f & Hf & Hdel).
    exists (mkScript (list_erase (S k) (frames s)) k (currFrameNum s)), f.
    rewrite Hdel. cbn [frames iter currFrameNum Nat.pred].
    split; [reflexivity|]. split; [apply list_erase_length; exact Hlt|].
    split; [intros j Hj; apply list_erase_nth_before; lia|].
    split; [intros j Hj; apply list_erase_nth_after; lia|].
    split; [reflexivity|].
    split; [rewrite list_erase_nth_before by lia; exact Hf|].
    split; [exact Hf | reflexivity].
Qed.

(** X8: capturing a new frame after the current one and then stepping back
    puts the cursor on the frame it was on, with [currFrameNum] as it was;
    the new frame sits right after it. *)
Theorem create_then_regress_returns_to_frame :
  forall (rootNode : SgRootNode) s g,
    nth_error (frames s) (iter s) = Some g ->
    INT_MIN <= currFrameNum s < INT_MAX ->
    exists s',
      (createNewFrameFromSceneAfterCurrentFrame rootNode ;; regressCurrentFrame) s
      = Ok tt s'
           [Cout (AddingNewFrame (currFrameNum s + 1));
            ShowFrameInScene (Frame_fromScene rootNode);
            Cout (RegressingToFrame (currFrameNum s));
            ShowFrameInScene g]
      /\ iter s' = iter s
      /\ currFrameNum s' = currFrameNum s
      /\ nth_error (frames s') (iter s') = Some g
      /\ nth_error (frames s') (S (iter s')) = Some (Frame_fromScene rootNode)
      /\ length (frames s') = S (length (frames s)).
Proof.
  intros rootNode s g Hg Hc.
  assert (Hlt : (iter s < length (frames s))%nat) by (apply nth_error_Some; congruence).
  assert (HImin : INT_MIN = -2147483648) by reflexivity.
  exists (mkScript (list_insert (S (iter s)) (Frame_fromScene rootNode) (frames s))
                   (iter s) (currFrameNum s)).
  split.
  - unfold bind. rewrite createNewFrame_live by lia.
    rewrite (regressCurrentFrame_step _ (iter s) g); cbn [frames iter currFrameNum].
    + replace (currFrameNum s + 1 - 1) with (currFrameNum s) by lia. reflexivity.
    + reflexivity.
    + rewrite list_insert_length. lia.
    + rewrite list_insert_nth_before by lia. exact Hg.
    + lia.
  - cbn [frames iter currFrameNum].
    split; [reflexivity|]. split; [reflexivity|].
    split; [rewrite list_insert_nth_before by lia; exact Hg|].
    split; [apply list_insert_nth_new; lia | apply list_insert_length].
Qed.

(** X9: capturing a new frame after the current one and deleting it at once
    restores the list of frames and puts the cursor back on the frame it was
    on; [currFrameNum] is then one more than it was, since
    [deleteCurrentFrame] does not count the step back. *)
Theorem create_then_delete_restores_frames :
  forall (rootNode : SgRootNode) s g,
    nth_error (frames s) (iter s) = Some g ->
    currFrameNum s < INT_MAX ->
    (createNewFrameFromSceneAfterCurrentFrame rootNode ;; deleteCurrentFrame) s
    = Ok tt (mkScript (frames s) (iter s) (currFrameNum s + 1))
         [Cout (AddingNewFrame (currFrameNum s + 1));
          ShowFrameInScene (Frame_fromScene rootNode);
          ShowFrameInScene g].
Proof.
  intros rootNode s g Hg Hc.
  assert (Hlt : (iter s < length (frames s))%nat) by (apply nth_error_Some; congruence).
  unfold bind. rewrite createNewFrame_live by lia.
  destruct (deleteCurrentFrame_not_first
              (mkScript (list_insert (S (iter s)) (Frame_fromScene rootNode) (frames s))
                        (S (iter s)) (currFrameNum s + 1)) (iter s) eq_refl)
    as (f & Hf & Hdel).
  { cbn [frames]. rewrite list_insert_length. lia. }
  cbn [frames iter currFrameNum] in Hf, Hdel.
  rewrite list_insert_nth_before in Hf by lia.
  rewrite Hg in Hf. inversion Hf; subst f.
  rewrite Hdel, list_erase_insert by lia. reflexivity.
Qed.

(** X10: when [currFrameNum] is the cursor's distance from the first element
    and the count is an [int], stepping back from a frame that is not the
    first one and then forward again restores the store. *)
Theorem regress_then_advance_restores :
  forall s,
    ordinal_ok s ->
    (0 < iter s < length (frames s))%nat ->
    Z.of_nat (length (frames s)) <= INT_MAX ->
    exists out, (regressCurrentFrame ;; advanceCurrentFrame) s = Ok tt s out.
Proof.
  intros s Hord [Hpos Hlt] Hsz.
  pose proof INT_MAX_lt_SIZE as HI.
  assert (HImax : INT_MAX = 2147483647) by reflexivity.
  assert (HImin : INT_MIN = -2147483648) by reflexivity.
  specialize (Hord Hlt).
  destruct s as [fs [|k] c]; cbn [frames iter currFrameNum] in *; [lia|].
  destruct (nth_error fs k) as [g|] eqn:Hg.
  2:{ apply nth_error_None in Hg. lia. }
  destruct (nth_error fs (S k)) as [f|] eqn:Hf.
  2:{ apply nth_error_None in Hf. lia. }
  exists ([Cout (RegressingToFrame (c - 1)); ShowFrameInScene g]
          ++ [Cout (AdvancingToFrame (c - 1 + 1)); ShowFrameInScene f]).
  unfold bind.
  rewrite (regressCurrentFrame_step _ k g); cbn [frames iter currFrameNum];
    try reflexivity; try assumption; try lia.
  rewrite (advanceCurrentFrame_step _ f); cbn [frames iter currFrameNum];
    try assumption; try lia.
  - replace (c - 1 + 1) with c by lia. reflexivity.
  - apply Z.ltb_lt. rewrite !to_size_t_small; lia.
Qed.

(** X11: the ends of the sequence absorb navigation.  On the first frame
    [regressCurrentFrame()] changes nothing and shows nothing; on the last
    frame, with [currFrameNum] equal to the cursor's distance from the first
    element, so does [advanceCurrentFrame()]; on a store without frames both
    only put the cursor and the counter in their initial state. *)
Theorem navigation_stops_at_the_ends :
  forall s,
    (iter s = 0%nat -> frames s <> [] -> regressCurrentFrame s = Ok tt s [])
    /\ (S (iter s) = length (frames s) ->
        currFrameNum s = Z.of_nat (iter s) ->
        advanceCurrentFrame s = Ok tt s [])
    /\ (frames s = [] ->
        regressCurrentFrame s = Ok tt Script_new []
        /\ advanceCurrentFrame s = Ok tt Script_new []).
Proof.
  intros [fs it c]; cbn [frames iter currFrameNum]. split; [|split].
  - intros -> Hne. destruct fs as [|f fs]; [contradiction|]. reflexivity.
  - intros Hlast Hc. apply advanceCurrentFrame_blocked; cbn [frames iter currFrameNum].
    + lia.
    + replace (Z.of_nat (length fs) - 1) with c by lia. apply Z.ltb_irrefl.
  - intros ->. split; reflexivity.
Qed.

(** X12: [interpolate(alpha)] returns exactly when the frame before the
    cursor, the frame under it and the two frames after it are all in the
    list; with the cursor on the first element it stops at its first
    statement, stepping back from [begin()]. *)
Theorem interpolate_returns_iff_context :
  forall s (alpha : Alpha),
    ((exists s' out, interpolate alpha s = Ok tt s' out)
     <-> (1 <= iter s)%nat /\ (iter s + 2 < length (frames s))%nat)
    /\ (iter s = 0%nat -> interpolate alpha s = Fault DecrementBegin s []).
Proof.
  intros s alpha. split; [split|].
  - intros (s' & out & H).
    destruct s as [fs it c]. cbn [frames iter]. unfold interpolate in H. steps_in H.
    repeat case_split H.
    repeat match goal with
           | H : nth_error _ _ = Some _ |- _ => apply nth_error_ltb in H
           end.
    bools. lia.
  - intros [H1 H2].
    destruct (iter s) as [|k] eqn:Hit; [lia|].
    destruct (nth_error (frames s) k) as [p|] eqn:Hp.
    2:{ apply nth_error_None in Hp. lia. }
    destruct (nth_error (frames s) (S k)) as [f1|] eqn:Hf.
    2:{ apply nth_error_None in Hf. lia. }
    destruct (nth_error (frames s) (S (S k))) as [f2|] eqn:Hs.
    2:{ apply nth_error_None in Hs. lia. }
    destruct (nth_error (frames s) (S (S (S k)))) as [a|] eqn:Ha.
    2:{ apply nth_error_None in Ha. lia. }
    eexists _, _. apply (interpolate_in_range s alpha k p f1 f2 a Hit Hp Hf Hs Ha).
  - destruct s as [fs it c]; cbn [iter]. intros ->. reflexivity.
Qed.

(** X13: when [currFrameNum] is the cursor's distance from the first
    element, the count is an [int] and the cursor is on an element other
    than the first, a true [canAnimate()] makes the following
    [interpolate(alpha)] return, with the store unchanged. *)
Theorem canAnimate_guards_interpolate_off_first :
  forall s (alpha : Alpha),
    ordinal_ok s ->
    (1 <= iter s < length (frames s))%nat ->
    Z.of_nat (length (frames s)) <= INT_MAX ->
    canAnimate s = Ok true s [] ->
    exists out, interpolate alpha s = Ok tt s out.
Proof.
  intros s alpha Hord [H1 Hlt] Hsz Hcan.
  pose proof (canAnimate_context_after s Hord Hlt ltac:(lia) Hsz Hcan) as H2.
  destruct (iter s) as [|k] eqn:Hit; [lia|].
  destruct (nth_error (frames s) k) as [p|] eqn:Hp.
  2:{ apply nth_error_None in Hp. lia. }
  destruct (nth_error (frames s) (S k)) as [f1|] eqn:Hf.
  2:{ apply nth_error_None in Hf. lia. }
  destruct (nth_error (frames s) (S (S k))) as [f2|] eqn:Hs.
  2:{ apply nth_error_None in Hs. lia. }
  destruct (nth_error (frames s) (S (S (S k)))) as [a|] eqn:Ha.
  2:{ apply nth_error_None in Ha. lia. }
  eexists. apply (interpolate_in_range s alpha k p f1 f2 a Hit Hp Hf Hs Ha).
Qed.

(** X14: in a store that a client can obtain, with at least two frames (and
    fewer than 2^64), [canAnimate()] leaves the store as it is and returns
    true exactly when at least three frames are stored and [currFrameNum]
    is at most the count minus three. *)
Theorem canAnimate_on_reachable_store :
  forall s,
    reachable s ->
    (2 <= length (frames s))%nat ->
    Z.of_nat (length (frames s)) < SIZE_T_MODULUS ->
    exists b,
      canAnimate s = Ok b s []
      /\ (b = true <-> (3 <= length (frames s))%nat
                       /\ currFrameNum s <= Z.of_nat (length (frames s)) - 3).
Proof.
  intros s Hr H2 Hsz.
  apply reachable_store_inv in Hr as [Hcur Hord].
  assert (Hlt : (iter s < length (frames s))%nat).
  { destruct Hcur as [Hlt|[Hnil _]]; [exact Hlt|]. rewrite Hnil in H2. cbn in H2. lia. }
  pose proof (canAnimate_iff_two_more s Hlt H2 Hsz ltac:(lia)) as Hiff.
  rewrite (canAnimate_live s Hlt) in *.
  eexists. split; [reflexivity|].
  rewrite <- Hiff. split; [intros ->; reflexivity | intros H; inversion H; reflexivity].
Qed.

(** X15: [advanceIter()] has no guard.  Called with the cursor on the last
    frame it returns with the cursor at [end()]: then [defined()] is false
    although frames are stored, [showCurrentFrameInScene()] shows nothing,
    and [createNewFrameFromSceneAfterCurrentFrame] puts the captured frame
    at the back of the list and the cursor on the first frame. *)
Theorem advanceIter_on_last_frame_leaves_cursor_at_end :
  forall (rootNode : SgRootNode) f fs it c,
    S it = length (f :: fs) ->
    c < INT_MAX ->
    advanceIter (mkScript (f :: fs) it c)
    = Ok tt (mkScript (f :: fs) (length (f :: fs)) (c + 1)) [Cout (AdvancingToFrame (c + 1))]
    /\ defined (mkScript (f :: fs) (length (f :: fs)) (c + 1))
       = Ok false (mkScript (f :: fs) (length (f :: fs)) (c + 1)) []
    /\ showCurrentFrameInScene (mkScript (f :: fs) (length (f :: fs)) (c + 1))
       = Ok tt (mkScript (f :: fs) (length (f :: fs)) (c + 1)) []
    /\ createNewFrameFromSceneAfterCurrentFrame rootNode
         (mkScript (f :: fs) (length (f :: fs)) (c + 1))
       = Ok tt (mkScript ((f :: fs) ++ [Frame_fromScene rootNode]) 0 0)
            [Cout (AddingNewFrame 0); ShowFrameInScene f].
Proof.
  intros rootNode f fs it c Hlast Hc.
  assert (Hdef : defined (mkScript (f :: fs) (length (f :: fs)) (c + 1))
                 = Ok false (mkScript (f :: fs) (length (f :: fs)) (c + 1)) []).
  { rewrite defined_cons, Nat.eqb_refl. reflexivity. }
  split; [|split; [exact Hdef|split]].
  - steps. rewrite <- Hlast.
    replace (it <? S it)%nat with true by (symmetry; apply Nat.ltb_lt; lia).
    replace (c =? INT_MAX) with false by (symmetry; apply Z.eqb_neq; lia).
    reflexivity.
  - unfold showCurrentFrameInScene, bind. rewrite Hdef. reflexivity.
  - apply createNewFrame_at_end.
Qed.

Lemma shown_frames_app (out1 out2 : list (event Frame)) :
  shown_frames (out1 ++ out2) = shown_frames out1 ++ shown_frames out2.
Proof.
  induction out1 as [|e out1 IH]; [reflexivity|].
  destruct e; cbn; rewrite IH; reflexivity.
Qed.

Lemma skipn_nth_error_cons {A} (l : list A) k x :
  nth_error l k = Some x -> skipn k l = x :: skipn (S k) l.
Proof.
  revert k. induction l as [|y l IH]; intros [|k] H; try discriminate.
  - inversion H; reflexivity.
  - cbn [skipn]. apply IH. exact H.
Qed.

Lemma repeat_advance_from k :
  forall fs i,
    (i < length fs)%nat ->
    Z.of_nat (length fs) <= INT_MAX ->
    exists out,
      repeat_call k advanceCurrentFrame (mkScript fs i (Z.of_nat i))
      = Ok tt (mkScript fs (Nat.min (i + k) (length fs - 1))
                        (Z.of_nat (Nat.min (i + k) (length fs - 1)))) out
      /\ shown_frames out = firstn k (skipn (S i) fs).
Proof.
  pose proof INT_MAX_lt_SIZE as HI.
  assert (HImax : INT_MAX = 2147483647) by reflexivity.
  induction k as [|k IH]; intros fs i Hlt Hsz.
  - exists []. cbn [repeat_call firstn shown_frames]. unfold ret.
    replace (Nat.min (i + 0) (length fs - 1)) with i by lia. split; reflexivity.
  - cbn [repeat_call]. unfold bind.
    destruct (nth_error fs (S i)) as [f|] eqn:Hf.
    + assert (Hs : (S i < length fs)%nat) by (apply nth_error_Some; congruence).
      rewrite (advanceCurrentFrame_step _ f); cbn [frames iter currFrameNum];
        [ | exact Hf | apply Z.ltb_lt; rewrite !to_size_t_small; lia | lia ].
      replace (Z.of_nat i + 1) with (Z.of_nat (S i)) by lia.
      destruct (IH fs (S i) Hs Hsz) as (out & Hrun & Hshown).
      rewrite Hrun.
      replace (Nat.min (S i + k) (length fs - 1))
        with (Nat.min (i + S k) (length fs - 1)) by lia.
      eexists. split; [reflexivity|].
      cbn [app shown_frames]. rewrite Hshown.
      rewrite (skipn_nth_error_cons fs (S i) f Hf). reflexivity.
    + apply nth_error_None in Hf.
      rewrite advanceCurrentFrame_blocked; cbn [frames iter currFrameNum];
        [ | exact Hlt
          | apply Z.ltb_ge; replace (Z.of_nat (length fs) - 1) with (Z.of_nat i) by lia; lia ].
      destruct (IH fs i Hlt Hsz) as (out & Hrun & Hshown).
      rewrite Hrun.
      replace (Nat.min (i + k) (length fs - 1))
        with (Nat.min (i + S k) (length fs - 1)) by lia.
      eexists. split; [reflexivity|].
      cbn [app]. rewrite Hshown.
      rewrite skipn_all2 by lia. rewrite !firstn_nil. reflexivity.
Qed.

(** X16: from a freshly loaded sequence that is not empty (with a count that
    is an [int]), [k] calls of [advanceCurrentFrame()] return, leave the
    frames as they are, and put the cursor and [currFrameNum] on index [k],
    or on the last frame when fewer than [k] frames follow the first; the
    frames shown on the way are the next [k] frames of the sequence, in
    order. *)
Theorem repeated_advance_plays_frames_in_order :
  forall (fs : list Frame) (k : nat),
    fs <> [] ->
    Z.of_nat (length fs) <= INT_MAX ->
    exists out,
      repeat_call k advanceCurrentFrame (Script_of fs)
      = Ok tt (mkScript fs (Nat.min k (length fs - 1))
                        (Z.of_nat (Nat.min k (length fs - 1)))) out
      /\ shown_frames out = firstn k (tl fs).
Proof.
  intros fs k Hne Hsz.
  destruct fs as [|f fs]; [contradiction|].
  destruct (repeat_advance_from k (f :: fs) 0 ltac:(cbn; lia) Hsz) as (out & Hrun & Hshown).
  exists out. split; [exact Hrun | exact Hshown].
Qed.

(** *** Writing a script and reading it back *)

Lemma serialize_frames_unlines fs (serialized : string) :
  serialize_frames serialized fs
  = (serialized ++ unlines (map Frame_serialize fs))%string.
Proof.
  revert serialized. induction fs as [|f fs IH]; intros serialized.
  - cbn. rewrite append_empty_r. reflexivity.
  - cbn [serialize_frames map unlines]. rewrite IH, !append_assoc. reflexivity.
Qed.

Lemma loadScriptFromFile_present (fsys : FileSystem) filename (rootNode : SgRootNode) file :
  fsys filename = Some file ->
  Z.of_nat (length (file_lines file)) <= INT_MAX ->
  loadScriptFromFile fsys filename rootNode
  = Done (Script_of (map (Frame_deserialize rootNode) (file_lines file)), []).
Proof.
  intros Hsome Hmax.
  unfold loadScriptFromFile. rewrite Hsome.
  rewrite read_lines_file_lines by lia. cbn [app].
  pose proof (deserialize_loop_map (S (length (file_lines file))) rootNode
                (file_lines file) 0 [] Hmax (Nat.le_0_l _) ltac:(lia)) as E.
  cbn [Z.of_nat skipn app] in E. rewrite E. reflexivity.
Qed.

(** X17: [writeScriptToFile] leaves the store as it is and hands the stream
    one line per frame, in order, each closed by a newline.  When no
    serialized frame contains a newline and the count is an [int],
    [loadScriptFromFile] on a file with that text returns the store whose
    frames are the deserialized serializations of the written frames, in
    order, with the cursor on the first one; when deserializing undoes
    serializing on the stored frames, these are the written frames. *)
Theorem write_then_load_round_trip :
  forall (fsys : FileSystem) (filename : string) (rootNode : SgRootNode) s,
    Forall newline_free (map Frame_serialize (frames s)) ->
    Z.of_nat (length (frames s)) <= INT_MAX ->
    exists text,
      writeScriptToFile filename s = Ok tt s [FileWritten filename text]
      /\ text = unlines (map Frame_serialize (frames s))
      /\ file_lines text = map Frame_serialize (frames s)
      /\ (fsys filename = Some text ->
          loadScriptFromFile fsys filename rootNode
          = Done (Script_of (map (fun f => Frame_deserialize rootNode (Frame_serialize f))
                                 (frames s)), [])
          /\ ((forall f, In f (frames s) ->
                         Frame_deserialize rootNode (Frame_serialize f) = f) ->
              loadScriptFromFile fsys filename rootNode = Done (Script_of (frames s), []))).
Proof.
  intros fsys filename rootNode s Hfree Hmax.
  exists (unlines (map Frame_serialize (frames s))).
  assert (Hlines : file_lines (unlines (map Frame_serialize (frames s)))
                   = map Frame_serialize (frames s))
    by (apply file_lines_unlines; exact Hfree).
  split; [|split; [reflexivity|split; [exact Hlines|]]].
  - destruct s as [fs it c]. unfold writeScriptToFile. steps.
    rewrite serialize_frames_unlines. reflexivity.
  - intros Hsome.
    assert (Hload : loadScriptFromFile fsys filename rootNode
                    = Done (Script_of (map (fun f => Frame_deserialize rootNode (Frame_serialize f))
                                           (frames s)), [])).
    { rewrite (loadScriptFromFile_present fsys filename rootNode _ Hsome)
        by (rewrite Hlines, length_map; exact Hmax).
      rewrite Hlines, map_map. reflexivity. }
    split; [exact Hload|].
    intros Hinv. rewrite Hload. do 2 f_equal. unfold Script_of. f_equal.
    rewrite <- (map_id (frames s)) at 2. apply map_ext_in. exact Hinv.
Qed.

(** *** The reading loop at the end of the file *)

Lemma file_lines_from_open_line l line :
  newline_free l -> file_lines_from line true l = [(line ++ l)%string].
Proof.
  revert line. induction l as [|c l IH]; intros line Hfree.
  - cbn. rewrite append_empty_r. reflexivity.
  - destruct Hfree as [Hc Hfree]. cbn. rewrite Hc.
    rewrite IH by assumption. rewrite append_assoc. reflexivity.
Qed.

Lemma file_lines_unterminated ls l :
  Forall newline_free ls -> newline_free l -> l <> EmptyString ->
  file_lines (unlines ls ++ l) = ls ++ [l].
Proof.
  intros Hls Hl Hne. induction Hls as [|l0 ls Hl0 _ IH].
  - cbn [unlines app]. change (EmptyString ++ l)%string with l.
    destruct l as [|c l]; [contradiction|].
    destruct Hl as [Hc Hl]. unfold file_lines. cbn. rewrite Hc.
    rewrite file_lines_from_open_line by assumption. reflexivity.
  - cbn [unlines app]. rewrite append_assoc.
    change (String newline (unlines ls) ++ l)%string
      with (String newline (unlines ls ++ l)).
    unfold file_lines at 1. rewrite file_lines_from_line by assumption.
    rewrite IH. reflexivity.
Qed.

(** X18: the reading loop of [loadScriptFromFile] always ends within the
    fuel it is given, and more fuel does not change what it reads.  It
    reads a text of newline-closed lines back as those lines, so a
    newline at the end of the file gives no extra empty line and an empty
    file gives no line; a last line that is not closed by a newline is
    read as a line too. *)
Theorem read_lines_handles_end_of_file :
  forall (ls : list string) (l : string),
    Forall newline_free ls ->
    (forall file fuel,
        (String.length file < fuel)%nat ->
        read_lines fuel file [] = read_lines (S (String.length file)) file []
        /\ read_lines fuel file [] <> OutOfFuel)
    /\ read_lines (S (String.length (unlines ls))) (unlines ls) [] = Done ls
    /\ (newline_free l -> l <> EmptyString ->
        read_lines (S (String.length (unlines ls ++ l))) (unlines ls ++ l)%string []
        = Done (ls ++ [l])).
Proof.
  intros ls l Hls. split; [|split].
  - intros file fuel Hfuel.
    rewrite !read_lines_file_lines by lia. split; [reflexivity | discriminate].
  - rewrite read_lines_file_lines by lia. cbn [app].
    rewrite file_lines_unlines by exact Hls. reflexivity.
  - intros Hl Hne. rewrite read_lines_file_lines by lia. cbn [app].
    rewrite file_lines_unterminated by assumption. reflexivity.
Qed.

Lemma deleteCurrentFrame_removes_current_aux s :
  (iter s < length (frames s))%nat ->
  (2 <= length (frames s))%nat ->
  exists s' f,
    deleteCurrentFrame s = Ok tt s' [ShowFrameInScene f]
    /\ S (length (frames s')) = length (frames s)
    /\ iter s' = Nat.pred (iter s)
    /\ currFrameNum s' = currFrameNum s.
Proof.
  intros Hlt H2.
  destruct (iter s) as [|k] eqn:Hit.
  - destruct s as [[|f [|g rest]] it c]; cbn [frames iter length] in *;
      try lia. subst it.
    exists (mkScript (g :: rest) 0 c), g.
    rewrite deleteCurrentFrame_first. repeat split.
  - destruct (deleteCurrentFrame_not_first s k Hit Hlt) as (f & Hf & Hdel).
    exists (mkScript (list_erase (S k) (frames s)) k (currFrameNum s)), f.
    rewrite Hdel. cbn [frames iter currFrameNum Nat.pred].
    split; [reflexivity|]. split; [apply list_erase_length; exact Hlt|].
    split; reflexivity.
Qed.
(** X19: when [currFrameNum] is the cursor's distance from the first element
    and at least two frames are stored, [deleteCurrentFrame()] keeps that
    agreement exactly when the deleted frame is the first one; after
    deleting any later frame [currFrameNum] is one more than the
    distance. *)
Theorem deleteCurrentFrame_keeps_ordinal_only_at_first :
  forall s s' out,
    ordinal_ok s ->
    (iter s < length (frames s))%nat ->
    (2 <= length (frames s))%nat ->
    deleteCurrentFrame s = Ok tt s' out ->
    (iter s' < length (frames s'))%nat
    /\ (ordinal_ok s' <-> iter s = 0%nat)
    /\ ((0 < iter s)%nat -> currFrameNum s' = Z.of_nat (iter s') + 1).
Proof.
  intros s s' out Hord Hlt H2 Hdel.
  specialize (Hord Hlt).
  destruct (deleteCurrentFrame_removes_current_aux s Hlt H2) as (s1 & f & Hd & Hlen & Hit & Hc).
  rewrite Hd in Hdel. inversion Hdel; subst s1. clear Hdel.
  unfold ordinal_ok. rewrite Hit, Hc.
  assert (Hlive : (Nat.pred (iter s) < length (frames s'))%nat) by lia.
  split; [exact Hlive|]. split; [split|].
  - intros H. specialize (H Hlive). lia.
  - intros H0 _. lia.
  - intros Hpos. lia.
Qed.

(** X20: in a store that a client can obtain, [showCurrentFrameInScene()]
    returns and leaves the frames as they are; it shows exactly the frame
    under the cursor, and nothing when no frame is stored. *)
Theorem showCurrentFrameInScene_shows_cursor_frame :
  forall s,
    reachable s ->
    exists s' out,
      showCurrentFrameInScene s = Ok tt s' out
      /\ frames s' = frames s
      /\ match nth_error (frames s) (iter s) with
         | Some f => out = [ShowFrameInScene f] /\ s' = s
         | None => out = [] /\ frames s = []
         end.
Proof.
  intros s Hr. apply reachable_store_inv in Hr as [Hcur _].
  destruct s as [fs it c]; cbn [frames iter] in *.
  destruct Hcur as [Hlt|[-> ->]].
  - destruct (nth_error fs it) as [f|] eqn:Hf.
    2:{ apply nth_error_None in Hf. lia. }
    exists (mkScript fs it c), [ShowFrameInScene f].
    split; [|repeat split].
    unfold showCurrentFrameInScene, bind at 1.
    rewrite defined_live by (cbn [frames iter]; exact Hlt).
    steps. rewrite Hf. reflexivity.
  - exists Script_new, []. repeat split.
Qed.

(** X2: every member function other than [deleteCurrentFrame], whatever the
    store it is called on, keeps the following: the cursor is an iterator of
    the list (on an element or at [end()]), and whenever frames are stored
    [currFrameNum] is the distance from the first element to the cursor. *)
Theorem calls_other_than_delete_keep_ordinal :
  forall (c : call) s s' out,
    c <> DeleteCurrentFrame ->
    (iter s <= length (frames s))%nat ->
    (frames s <> [] -> currFrameNum s = Z.of_nat (iter s)) ->
    exec c s = Ok tt s' out ->
    (iter s' <= length (frames s'))%nat
    /\ (frames s' <> [] -> currFrameNum s' = Z.of_nat (iter s')).
Proof.
  intros c s s' out Hc Hit Hord H.
  destruct s as [fs it c0]. cbn [frames iter currFrameNum] in *.
  assert (Hord' : Z.of_nat (length fs) <> 0 -> c0 = Z.of_nat it).
  { intros Hn. apply Hord. intros ->. apply Hn. reflexivity. }
  clear Hord.
  destruct c; [ | | | | | | | | | contradiction | | | ];
    cbn [exec] in H;
    unfold getNumberOfKeyframes, canAnimate, showCurrentFrameInScene,
      replaceCurrentFrameFromScene, advanceCurrentFrame, regressCurrentFrame,
      goToBeginning, createNewFrameFromSceneAfterCurrentFrame,
      interpolate, writeScriptToFile, defined in H;
    steps_in H.
  all: repeat case_split H.
  all: inversion H; subst; clear H.
  all: cbn [frames iter currFrameNum length Nat.pred] in *.
  all: repeat match goal with
       | H : nth_error _ _ = Some _ |- _ => apply nth_error_ltb in H
       end;
       bools.
  all: split; [ lengths; lia | intros Hne ].
  all: try lia.
  all: try (assert (Hlen : length fs <> 0%nat)
              by (intros E; apply Hne; apply length_zero_nil; exact E);
            specialize (Hord' ltac:(lia)); lia).
Qed.

End Properties.

(** * The properties on concrete stores *)

Import Demo.

(** The store that holds one captured keyframe is reachable, and [defined()]
    is true on it. *)
Lemma defined_false_iff_no_keyframes_witness :
  reachable (at_cursor ["S"%string] 0 0)
  /\ exists b s',
       defined (at_cursor ["S"%string] 0 0) = Ok b s' []
       /\ (b = false <-> length (frames (at_cursor ["S"%string] 0 0)) = 0%nat)
       /\ (Z.of_nat (length (frames (at_cursor ["S"%string] 0 0))) <= INT_MAX ->
           exists n,
             getNumberOfKeyframes (at_cursor ["S"%string] 0 0)
             = Ok n (at_cursor ["S"%string] 0 0) []
             /\ (b = false <-> n = 0))
       /\ frames s' = frames (at_cursor ["S"%string] 0 0)
       /\ (length (frames (at_cursor ["S"%string] 0 0)) = 0%nat ->
           iter s' = 0%nat /\ currFrameNum s' = 0).
Proof.
  assert (Hr : reachable (at_cursor ["S"%string] 0 0)).
  { apply (reachable_call Script_new
             (CreateNewFrameFromSceneAfterCurrentFrame "S"%string) _
             [Cout (AddingNewFrame 0); ShowFrameInScene "S"%string]).
    - apply reachable_new.
    - exact I.
    - reflexivity. }
  split; [exact Hr|].
  exact (defined_false_iff_no_keyframes (at_cursor ["S"%string] 0 0) Hr).
Defined.

(** One unguarded [advanceIter()] on the only frame of a loaded script
    gives a store with the cursor at [end()]. *)
Lemma reachable_by_calls_cursor_at_end : reachable_by_calls (at_cursor [A] 1 1).
Proof.
  apply (by_calls_step (Script_of [A]) AdvanceIter _ [Cout (AdvancingToFrame 1)]).
  - apply by_calls_of.
  - reflexivity.
Defined.

(** In that store [defined()] is false although a frame is stored. *)
Lemma defined_false_with_a_keyframe_after_advanceIter :
  reachable_by_calls (at_cursor [A] 1 1)
  /\ advanceIter (Script_of [A]) = Ok tt (at_cursor [A] 1 1) [Cout (AdvancingToFrame 1)]
  /\ defined (at_cursor [A] 1 1) = Ok false (at_cursor [A] 1 1) []
  /\ length (frames (at_cursor [A] 1 1)) = 1%nat
  /\ getNumberOfKeyframes (at_cursor [A] 1 1) = Ok 1 (at_cursor [A] 1 1) [].
Proof.
  split; [exact reachable_by_calls_cursor_at_end|]. repeat split.
Defined.



(** Blending with the cursor on [B] in [A; B; C; D]. *)
Lemma interpolate_leaves_store_unchanged_witness :
  iter (at_cursor [A; B; C; D] 1 1) = 1%nat
  /\ nth_error (frames (at_cursor [A; B; C; D] 1 1)) 0 = Some A
  /\ nth_error (frames (at_cursor [A; B; C; D] 1 1)) 1 = Some B
  /\ nth_error (frames (at_cursor [A; B; C; D] 1 1)) 2 = Some C
  /\ nth_error (frames (at_cursor [A; B; C; D] 1 1)) 3 = Some D
  /\ exists s' out,
       interpolate 500 (at_cursor [A; B; C; D] 1 1) = Ok tt s' out
       /\ frames s' = [A; B; C; D]
       /\ iter s' = 1%nat
       /\ currFrameNum s' = 1
       /\ out = [ShowFrameInScene "mix(A,B,C,D)"%string].
Proof.
  repeat (split; [reflexivity|]).
  destruct (interpolate_leaves_store_unchanged
              (at_cursor [A; B; C; D] 1 1) 500 0%nat A B C D
              eq_refl eq_refl eq_refl eq_refl eq_refl) as [Hret _].
  exact Hret.
Defined.


(** * The further properties on concrete stores *)

Lemma reachable_after_one_advance : reachable (at_cursor [A; B; C] 1 1).
Proof.
  apply (reachable_call (Script_of [A; B; C]) AdvanceCurrentFrame _
           [Cout (AdvancingToFrame 1); ShowFrameInScene B]).
  - apply reachable_of.
  - exact I.
  - reflexivity.
Defined.

(** The store reached by one step forward in [A; B; C]. *)
Lemma reachable_cursor_on_live_frame_witness :
  reachable (at_cursor [A; B; C] 1 1)
  /\ ((exists f, nth_error (frames (at_cursor [A; B; C] 1 1)) (iter (at_cursor [A; B; C] 1 1))
                 = Some f)
      \/ (frames (at_cursor [A; B; C] 1 1) = [] /\ iter (at_cursor [A; B; C] 1 1) = 0%nat))
  /\ Z.of_nat (iter (at_cursor [A; B; C] 1 1)) <= currFrameNum (at_cursor [A; B; C] 1 1)
     <= INT_MAX.
Proof.
  split; [exact reachable_after_one_advance|].
  exact (reachable_cursor_on_live_frame _ reachable_after_one_advance).
Defined.

(** An unguarded [advanceIter()] on the last frame of [A; B; C] keeps the
    counter on the cursor. *)
Lemma calls_other_than_delete_keep_ordinal_witness :
  (@AdvanceIter string Z) <> DeleteCurrentFrame
  /\ (iter (at_cursor [A; B; C] 2 2) <= length (frames (at_cursor [A; B; C] 2 2)))%nat
  /\ (frames (at_cursor [A; B; C] 2 2) <> [] ->
      currFrameNum (at_cursor [A; B; C] 2 2) = Z.of_nat (iter (at_cursor [A; B; C] 2 2)))
  /\ exec (@AdvanceIter string Z) (at_cursor [A; B; C] 2 2)
     = Ok tt (at_cursor [A; B; C] 3 3) [Cout (AdvancingToFrame 3)]
  /\ (iter (at_cursor [A; B; C] 3 3) <= length (frames (at_cursor [A; B; C] 3 3)))%nat
  /\ (frames (at_cursor [A; B; C] 3 3) <> [] ->
      currFrameNum (at_cursor [A; B; C] 3 3) = Z.of_nat (iter (at_cursor [A; B; C] 3 3))).
Proof.
  assert (Hne : (@AdvanceIter string Z) <> DeleteCurrentFrame) by discriminate.
  assert (Hit : (iter (at_cursor [A; B; C] 2 2)
                 <= length (frames (at_cursor [A; B; C] 2 2)))%nat) by (cbn; lia).
  assert (Hord : frames (at_cursor [A; B; C] 2 2) <> [] ->
                 currFrameNum (at_cursor [A; B; C] 2 2)
                 = Z.of_nat (iter (at_cursor [A; B; C] 2 2))) by (intros _; reflexivity).
  split; [exact Hne|]. split; [exact Hit|]. split; [exact Hord|]. split; [reflexivity|].
  exact (calls_other_than_delete_keep_ordinal AdvanceIter
           (at_cursor [A; B; C] 2 2) (at_cursor [A; B; C] 3 3) [Cout (AdvancingToFrame 3)]
           Hne Hit Hord eq_refl).
Defined.

(** A step back leaves the frames alone. *)
Lemma frames_touched_only_by_create_replace_delete_witness :
  (@RegressCurrentFrame string Z) <> DeleteCurrentFrame
  /\ (forall rootNode : string,
         RegressCurrentFrame <> CreateNewFrameFromSceneAfterCurrentFrame (Alpha:=Z) rootNode)
  /\ (forall rootNode : string,
         RegressCurrentFrame <> ReplaceCurrentFrameFromScene (Alpha:=Z) rootNode)
  /\ match exec (@RegressCurrentFrame string Z) (at_cursor [A; B; C] 1 1) with
     | Ok _ s' _ => frames s' = frames (at_cursor [A; B; C] 1 1)
     | Fault _ s' _ => frames s' = frames (at_cursor [A; B; C] 1 1)
     end.
Proof.
  assert (H1 : (@RegressCurrentFrame string Z) <> DeleteCurrentFrame) by discriminate.
  assert (H2 : forall rootNode : string,
             RegressCurrentFrame <> CreateNewFrameFromSceneAfterCurrentFrame (Alpha:=Z) rootNode)
    by (intros r; discriminate).
  assert (H3 : forall rootNode : string,
             RegressCurrentFrame <> ReplaceCurrentFrameFromScene (Alpha:=Z) rootNode)
    by (intros r; discriminate).
  split; [exact H1|]. split; [exact H2|]. split; [exact H3|].
  exact (frames_touched_only_by_create_replace_delete
           RegressCurrentFrame (at_cursor [A; B; C] 1 1) H1 H2 H3).
Defined.

(** A step forward from [B] in [A; B; C] returns. *)
Lemma guarded_calls_return_witness :
  reachable (at_cursor [A; B; C] 1 1)
  /\ currFrameNum (at_cursor [A; B; C] 1 1) < INT_MAX
  /\ (@AdvanceCurrentFrame string Z) <> AdvanceIter
  /\ (@AdvanceCurrentFrame string Z) <> RegressIter
  /\ (forall alpha : Z, (@AdvanceCurrentFrame string Z) <> Interpolate alpha)
  /\ ((@AdvanceCurrentFrame string Z) = DeleteCurrentFrame ->
      length (frames (at_cursor [A; B; C] 1 1)) <> 1%nat)
  /\ exists s' out, exec (@AdvanceCurrentFrame string Z) (at_cursor [A; B; C] 1 1) = Ok tt s' out.
Proof.
  assert (Hc : currFrameNum (at_cursor [A; B; C] 1 1) < INT_MAX) by reflexivity.
  assert (H1 : (@AdvanceCurrentFrame string Z) <> AdvanceIter) by discriminate.
  assert (H2 : (@AdvanceCurrentFrame string Z) <> RegressIter) by discriminate.
  assert (H3 : forall alpha : Z, (@AdvanceCurrentFrame string Z) <> Interpolate alpha)
    by (intros a; discriminate).
  assert (H4 : (@AdvanceCurrentFrame string Z) = DeleteCurrentFrame ->
               length (frames (at_cursor [A; B; C] 1 1)) <> 1%nat) by discriminate.
  split; [exact reachable_after_one_advance|]. split; [exact Hc|].
  split; [exact H1|]. split; [exact H2|]. split; [exact H3|]. split; [exact H4|].
  exact (guarded_calls_return AdvanceCurrentFrame (at_cursor [A; B; C] 1 1)
           reachable_after_one_advance Hc H1 H2 H3 H4).
Defined.

(** Overwriting [B] in [A; B; C], and overwriting on the empty store. *)
Lemma replaceCurrentFrameFromScene_overwrites_current_witness :
  ((iter (at_cursor [A; B; C] 1 1) < length (frames (at_cursor [A; B; C] 1 1)))%nat
   /\ exists s',
        replaceCurrentFrameFromScene "S"%string (at_cursor [A; B; C] 1 1)
        = Ok tt s' [ShowFrameInScene "S"%string]
        /\ length (frames s') = 3%nat
        /\ nth_error (frames s') 1 = Some "S"%string
        /\ (forall j, j <> 1%nat -> nth_error (frames s') j = nth_error [A; B; C] j)
        /\ iter s' = 1%nat
        /\ currFrameNum s' = 1)
  /\ (frames (@Script_new string) = []
      /\ replaceCurrentFrameFromScene "S"%string Script_new
         = createNewFrameFromSceneAfterCurrentFrame "S"%string Script_new).
Proof.
  split.
  - assert (Hlt : (iter (at_cursor [A; B; C] 1 1)
                   < length (frames (at_cursor [A; B; C] 1 1)))%nat) by (cbn; lia).
    split; [exact Hlt|].
    exact (proj1 (replaceCurrentFrameFromScene_overwrites_current
                    "S"%string (at_cursor [A; B; C] 1 1)) Hlt).
  - split; [reflexivity|].
    exact (proj2 (replaceCurrentFrameFromScene_overwrites_current
                    "S"%string Script_new) eq_refl).
Defined.

(** Deleting [C] from [A; B; C; D]. *)
Lemma deleteCurrentFrame_removes_current_witness :
  (iter (at_cursor [A; B; C; D] 2 2) < length (frames (at_cursor [A; B; C; D] 2 2)))%nat
  /\ (2 <= length (frames (at_cursor [A; B; C; D] 2 2)))%nat
  /\ exists s' f,
       deleteCurrentFrame (at_cursor [A; B; C; D] 2 2) = Ok tt s' [ShowFrameInScene f]
       /\ S (length (frames s')) = 4%nat
       /\ (forall j, (j < 2)%nat -> nth_error (frames s') j = nth_error [A; B; C; D] j)
       /\ (forall j, (2 <= j)%nat -> nth_error (frames s') j = nth_error [A; B; C; D] (S j))
       /\ iter s' = 1%nat
       /\ nth_error (frames s') (iter s') = Some f
       /\ nth_error [A; B; C; D] 1 = Some f
       /\ currFrameNum s' = 2.
Proof.
  assert (Hlt : (iter (at_cursor [A; B; C; D] 2 2)
                 < length (frames (at_cursor [A; B; C; D] 2 2)))%nat) by (cbn; lia).
  assert (H2 : (2 <= length (frames (at_cursor [A; B; C; D] 2 2)))%nat) by (cbn; lia).
  split; [exact Hlt|]. split; [exact H2|].
  exact (deleteCurrentFrame_removes_current (at_cursor [A; B; C; D] 2 2) Hlt H2).
Defined.

(** Capturing after [B] in [A; B; C] and stepping back. *)
Lemma create_then_regress_returns_to_frame_witness :
  nth_error (frames (at_cursor [A; B; C] 1 1)) (iter (at_cursor [A; B; C] 1 1)) = Some B
  /\ INT_MIN <= currFrameNum (at_cursor [A; B; C] 1 1) < INT_MAX
  /\ exists s',
       (createNewFrameFromSceneAfterCurrentFrame "S"%string ;; regressCurrentFrame)
         (at_cursor [A; B; C] 1 1)
       = Ok tt s'
            [Cout (AddingNewFrame 2); ShowFrameInScene "S"%string;
             Cout (RegressingToFrame 1); ShowFrameInScene B]
       /\ iter s' = 1%nat
       /\ currFrameNum s' = 1
       /\ nth_error (frames s') (iter s') = Some B
       /\ nth_error (frames s') (S (iter s')) = Some "S"%string
       /\ length (frames s') = 4%nat.
Proof.
  assert (Hc : INT_MIN <= currFrameNum (at_cursor [A; B; C] 1 1) < INT_MAX)
    by (split; [discriminate | reflexivity]).
  split; [reflexivity|]. split; [exact Hc|].
  exact (create_then_regress_returns_to_frame "S"%string (at_cursor [A; B; C] 1 1) B
           eq_refl Hc).
Defined.

(** Capturing after [B] in [A; B; C] and deleting the new frame. *)
Lemma create_then_delete_restores_frames_witness :
  nth_error (frames (at_cursor [A; B; C] 1 1)) (iter (at_cursor [A; B; C] 1 1)) = Some B
  /\ currFrameNum (at_cursor [A; B; C] 1 1) < INT_MAX
  /\ (createNewFrameFromSceneAfterCurrentFrame "S"%string ;; deleteCurrentFrame)
       (at_cursor [A; B; C] 1 1)
     = Ok tt (at_cursor [A; B; C] 1 2)
          [Cout (AddingNewFrame 2); ShowFrameInScene "S"%string; ShowFrameInScene B].
Proof.
  assert (Hc : currFrameNum (at_cursor [A; B; C] 1 1) < INT_MAX) by reflexivity.
  split; [reflexivity|]. split; [exact Hc|].
  exact (create_then_delete_restores_frames "S"%string (at_cursor [A; B; C] 1 1) B
           eq_refl Hc).
Defined.

(** Stepping back from [B] in [A; B; C] and forward again. *)
Lemma regress_then_advance_restores_witness :
  ordinal_ok (at_cursor [A; B; C] 1 1)
  /\ (0 < iter (at_cursor [A; B; C] 1 1) < length (frames (at_cursor [A; B; C] 1 1)))%nat
  /\ Z.of_nat (length (frames (at_cursor [A; B; C] 1 1))) <= INT_MAX
  /\ exists out,
       (regressCurrentFrame ;; advanceCurrentFrame) (at_cursor [A; B; C] 1 1)
       = Ok tt (at_cursor [A; B; C] 1 1) out.
Proof.
  assert (Hord : ordinal_ok (at_cursor [A; B; C] 1 1)) by (intros _; reflexivity).
  assert (Hit : (0 < iter (at_cursor [A; B; C] 1 1)
                 < length (frames (at_cursor [A; B; C] 1 1)))%nat) by (cbn; lia).
  assert (Hsz : Z.of_nat (length (frames (at_cursor [A; B; C] 1 1))) <= INT_MAX)
    by discriminate.
  split; [exact Hord|]. split; [exact Hit|]. split; [exact Hsz|].
  exact (regress_then_advance_restores (at_cursor [A; B; C] 1 1) Hord Hit Hsz).
Defined.

(** The first and the last frame of [A; B; C], and the empty store. *)
Lemma navigation_stops_at_the_ends_witness :
  (iter (at_cursor [A; B; C] 0 0) = 0%nat
   /\ frames (at_cursor [A; B; C] 0 0) <> []
   /\ regressCurrentFrame (at_cursor [A; B; C] 0 0) = Ok tt (at_cursor [A; B; C] 0 0) [])
  /\ (S (iter (at_cursor [A; B; C] 2 2)) = length (frames (at_cursor [A; B; C] 2 2))
      /\ currFrameNum (at_cursor [A; B; C] 2 2) = Z.of_nat (iter (at_cursor [A; B; C] 2 2))
      /\ advanceCurrentFrame (at_cursor [A; B; C] 2 2) = Ok tt (at_cursor [A; B; C] 2 2) [])
  /\ (frames (@Script_new string) = []
      /\ regressCurrentFrame (@Script_new string) = Ok tt Script_new []
      /\ advanceCurrentFrame (@Script_new string) = Ok tt Script_new []).
Proof.
  assert (Hne : frames (at_cursor [A; B; C] 0 0) <> []) by discriminate.
  split; [|split].
  - split; [reflexivity|]. split; [exact Hne|].
    exact (proj1 (navigation_stops_at_the_ends (at_cursor [A; B; C] 0 0)) eq_refl Hne).
  - split; [reflexivity|]. split; [reflexivity|].
    exact (proj1 (proj2 (navigation_stops_at_the_ends (at_cursor [A; B; C] 2 2)))
             eq_refl eq_refl).
  - split; [reflexivity|].
    exact (proj2 (proj2 (navigation_stops_at_the_ends (@Script_new string))) eq_refl).
Defined.

(** Blending on the first frame of [A; B; C; D], and on [B]. *)
Lemma interpolate_returns_iff_context_witness :
  (iter (at_cursor [A; B; C; D] 0 0) = 0%nat
   /\ interpolate 500 (at_cursor [A; B; C; D] 0 0)
      = Fault DecrementBegin (at_cursor [A; B; C; D] 0 0) [])
  /\ ((1 <= iter (at_cursor [A; B; C; D] 1 1))%nat
      /\ (iter (at_cursor [A; B; C; D] 1 1) + 2 < length (frames (at_cursor [A; B; C; D] 1 1)))%nat
      /\ exists s' out, interpolate 500 (at_cursor [A; B; C; D] 1 1) = Ok tt s' out).
Proof.
  split.
  - split; [reflexivity|].
    exact (proj2 (interpolate_returns_iff_context (at_cursor [A; B; C; D] 0 0) 500) eq_refl).
  - assert (H1 : (1 <= iter (at_cursor [A; B; C; D] 1 1))%nat) by (cbn; lia).
    assert (H2 : (iter (at_cursor [A; B; C; D] 1 1) + 2
                  < length (frames (at_cursor [A; B; C; D] 1 1)))%nat) by (cbn; lia).
    split; [exact H1|]. split; [exact H2|].
    exact (proj2 (proj1 (interpolate_returns_iff_context (at_cursor [A; B; C; D] 1 1) 500))
             (conj H1 H2)).
Defined.

(** A true [canAnimate()] on [B] in [A; B; C; D]. *)
Lemma canAnimate_guards_interpolate_off_first_witness :
  ordinal_ok (at_cursor [A; B; C; D] 1 1)
  /\ (1 <= iter (at_cursor [A; B; C; D] 1 1) < length (frames (at_cursor [A; B; C; D] 1 1)))%nat
  /\ Z.of_nat (length (frames (at_cursor [A; B; C; D] 1 1))) <= INT_MAX
  /\ canAnimate (at_cursor [A; B; C; D] 1 1) = Ok true (at_cursor [A; B; C; D] 1 1) []
  /\ exists out, interpolate 500 (at_cursor [A; B; C; D] 1 1)
                 = Ok tt (at_cursor [A; B; C; D] 1 1) out.
Proof.
  assert (Hord : ordinal_ok (at_cursor [A; B; C; D] 1 1)) by (intros _; reflexivity).
  assert (Hit : (1 <= iter (at_cursor [A; B; C; D] 1 1)
                 < length (frames (at_cursor [A; B; C; D] 1 1)))%nat) by (cbn; lia).
  assert (Hsz : Z.of_nat (length (frames (at_cursor [A; B; C; D] 1 1))) <= INT_MAX)
    by discriminate.
  split; [exact Hord|]. split; [exact Hit|]. split; [exact Hsz|]. split; [reflexivity|].
  exact (canAnimate_guards_interpolate_off_first (at_cursor [A; B; C; D] 1 1) 500
           Hord Hit Hsz eq_refl).
Defined.

(** [canAnimate()] on [B] in [A; B; C]. *)
Lemma canAnimate_on_reachable_store_witness :
  reachable (at_cursor [A; B; C] 1 1)
  /\ (2 <= length (frames (at_cursor [A; B; C] 1 1)))%nat
  /\ Z.of_nat (length (frames (at_cursor [A; B; C] 1 1))) < SIZE_T_MODULUS
  /\ exists b,
       canAnimate (at_cursor [A; B; C] 1 1) = Ok b (at_cursor [A; B; C] 1 1) []
       /\ (b = true <-> (3 <= length (frames (at_cursor [A; B; C] 1 1)))%nat
                        /\ currFrameNum (at_cursor [A; B; C] 1 1)
                           <= Z.of_nat (length (frames (at_cursor [A; B; C] 1 1))) - 3).
Proof.
  assert (H2 : (2 <= length (frames (at_cursor [A; B; C] 1 1)))%nat) by (cbn; lia).
  assert (Hsz : Z.of_nat (length (frames (at_cursor [A; B; C] 1 1))) < SIZE_T_MODULUS)
    by reflexivity.
  split; [exact reachable_after_one_advance|]. split; [exact H2|]. split; [exact Hsz|].
  exact (canAnimate_on_reachable_store (at_cursor [A; B; C] 1 1)
           reachable_after_one_advance H2 Hsz).
Defined.

(** [advanceIter()] on the last frame of [A; B; C]. *)
Lemma advanceIter_on_last_frame_leaves_cursor_at_end_witness :
  S 2 = length [A; B; C]
  /\ 2 < INT_MAX
  /\ advanceIter (at_cursor [A; B; C] 2 2)
     = Ok tt (at_cursor [A; B; C] 3 3) [Cout (AdvancingToFrame 3)]
  /\ defined (at_cursor [A; B; C] 3 3) = Ok false (at_cursor [A; B; C] 3 3) []
  /\ showCurrentFrameInScene (at_cursor [A; B; C] 3 3) = Ok tt (at_cursor [A; B; C] 3 3) []
  /\ createNewFrameFromSceneAfterCurrentFrame "S"%string (at_cursor [A; B; C] 3 3)
     = Ok tt (at_cursor [A; B; C; "S"%string] 0 0)
          [Cout (AddingNewFrame 0); ShowFrameInScene A].
Proof.
  assert (Hc : 2 < INT_MAX) by reflexivity.
  split; [reflexivity|]. split; [exact Hc|].
  exact (advanceIter_on_last_frame_leaves_cursor_at_end "S"%string A [B; C] 2%nat 2
           eq_refl Hc).
Defined.

(** Five steps forward in [A; B; C; D]. *)
Lemma repeated_advance_plays_frames_in_order_witness :
  [A; B; C; D] <> []
  /\ Z.of_nat (length [A; B; C; D]) <= INT_MAX
  /\ exists out,
       repeat_call 5 advanceCurrentFrame (Script_of [A; B; C; D])
       = Ok tt (at_cursor [A; B; C; D] 3 3) out
       /\ shown_frames out = [B; C; D].
Proof.
  assert (Hne : [A; B; C; D] <> []) by discriminate.
  assert (Hsz : Z.of_nat (length [A; B; C; D]) <= INT_MAX) by discriminate.
  split; [exact Hne|]. split; [exact Hsz|].
  exact (repeated_advance_plays_frames_in_order [A; B; C; D] 5 Hne Hsz).
Defined.

(** Writing [A; B; C] and loading the file that holds the written text. *)
Lemma write_then_load_round_trip_witness :
  Forall newline_free (map Frame_serialize (frames (at_cursor [A; B; C] 1 1)))
  /\ Z.of_nat (length (frames (at_cursor [A; B; C] 1 1))) <= INT_MAX
  /\ exists text,
       writeScriptToFile "script.txt"%string (at_cursor [A; B; C] 1 1)
       = Ok tt (at_cursor [A; B; C] 1 1) [FileWritten "script.txt"%string text]
       /\ text = unlines [A; B; C]
       /\ file_lines text = [A; B; C]
       /\ (one_file "script.txt"%string = Some text ->
           loadScriptFromFile one_file "script.txt"%string "root"%string
           = Done (Script_of [A; B; C], [])
           /\ ((forall f, In f [A; B; C] -> f = f) ->
               loadScriptFromFile one_file "script.txt"%string "root"%string
               = Done (Script_of [A; B; C], []))).
Proof.
  assert (Hfree : Forall newline_free (map Frame_serialize (frames (at_cursor [A; B; C] 1 1)))).
  { repeat constructor. }
  assert (Hsz : Z.of_nat (length (frames (at_cursor [A; B; C] 1 1))) <= INT_MAX)
    by discriminate.
  split; [exact Hfree|]. split; [exact Hsz|].
  exact (write_then_load_round_trip one_file "script.txt"%string "root"%string
           (at_cursor [A; B; C] 1 1) Hfree Hsz).
Defined.

(** Two closed lines followed by an open one. *)
Lemma read_lines_handles_end_of_file_witness :
  Forall newline_free [A; B]
  /\ read_lines (S (String.length (unlines [A; B]))) (unlines [A; B]) [] = Done [A; B]
  /\ (newline_free C
      /\ C <> EmptyString
      /\ read_lines (S (String.length (unlines [A; B] ++ C))) (unlines [A; B] ++ C)%string []
         = Done ([A; B] ++ [C])).
Proof.
  assert (Hfree : Forall newline_free [A; B]) by (repeat constructor).
  assert (Hc : newline_free C) by (repeat constructor).
  assert (Hne : C <> EmptyString) by discriminate.
  destruct (read_lines_handles_end_of_file [A; B] C Hfree) as [_ [Hclosed Hopen]].
  split; [exact Hfree|]. split; [exact Hclosed|].
  split; [exact Hc|]. split; [exact Hne|]. exact (Hopen Hc Hne).
Defined.

(** Deleting [C] from [A; B; C; D] with the counter on the cursor. *)
Lemma deleteCurrentFrame_keeps_ordinal_only_at_first_witness :
  ordinal_ok (at_cursor [A; B; C; D] 2 2)
  /\ (iter (at_cursor [A; B; C; D] 2 2) < length (frames (at_cursor [A; B; C; D] 2 2)))%nat
  /\ (2 <= length (frames (at_cursor [A; B; C; D] 2 2)))%nat
  /\ deleteCurrentFrame (at_cursor [A; B; C; D] 2 2)
     = Ok tt (at_cursor [A; B; D] 1 2) [ShowFrameInScene B]
  /\ (iter (at_cursor [A; B; D] 1 2) < length (frames (at_cursor [A; B; D] 1 2)))%nat
  /\ (ordinal_ok (at_cursor [A; B; D] 1 2) <-> iter (at_cursor [A; B; C; D] 2 2) = 0%nat)
  /\ ((0 < iter (at_cursor [A; B; C; D] 2 2))%nat ->
      currFrameNum (at_cursor [A; B; D] 1 2) = Z.of_nat (iter (at_cursor [A; B; D] 1 2)) + 1).
Proof.
  assert (Hord : ordinal_ok (at_cursor [A; B; C; D] 2 2)) by (intros _; reflexivity).
  assert (Hlt : (iter (at_cursor [A; B; C; D] 2 2)
                 < length (frames (at_cursor [A; B; C; D] 2 2)))%nat) by (cbn; lia).
  assert (H2 : (2 <= length (frames (at_cursor [A; B; C; D] 2 2)))%nat) by (cbn; lia).
  split; [exact Hord|]. split; [exact Hlt|]. split; [exact H2|]. split; [reflexivity|].
  exact (deleteCurrentFrame_keeps_ordinal_only_at_first
           (at_cursor [A; B; C; D] 2 2) (at_cursor [A; B; D] 1 2) [ShowFrameInScene B]
           Hord Hlt H2 eq_refl).
Defined.

(** Showing the current frame with the cursor on [B] in [A; B; C]. *)
Lemma showCurrentFrameInScene_shows_cursor_frame_witness :
  reachable (at_cursor [A; B; C] 1 1)
  /\ exists s' out,
       showCurrentFrameInScene (at_cursor [A; B; C] 1 1) = Ok tt s' out
       /\ frames s' = [A; B; C]
       /\ (out = [ShowFrameInScene B] /\ s' = at_cursor [A; B; C] 1 1).
Proof.
  split; [exact reachable_after_one_advance|].
  exact (showCurrentFrameInScene_shows_cursor_frame (at_cursor [A; B; C] 1 1)
           reachable_after_one_advance).
Defined.
